(** * grbLC fitting core: a shallow embedding of [grblc/fitting/model.py]
      and [grblc/fitting/models.py]

    Conventions of the embedding.
    - A Python [float] (a NumPy float64) that is finite is a real number of
      [R]; rounding is not modelled.  [xfloat] adds the non-finite results
      (IEEE inf and nan, which the code produces on a division by zero).
    - A one-dimensional NumPy array is a [list].
    - A Python [dict] keeps insertion order, so it is an association list
      in insertion order ([PyDict]).
    - An exception is a value of [exn] returned on the left of a sum. *)

From Stdlib Require Import Reals Lra Lia List String Bool ZArith.
From Stdlib Require Import Ascii.
Import ListNotations.

Set Implicit Arguments.

(* ===================================================================== *)
(** ** Python dictionaries with string keys, in insertion order *)
(* ===================================================================== *)

Module PyDict.

Section Dict.
Variable V : Type.

Definition dict := list (string * V).

(** [d[k] = v]: an existing key keeps its position and gets the new
    value, a new key goes to the end. *)
Fixpoint setitem (d : dict) (k : string) (v : V) : dict :=
  match d with
  | [] => [(k, v)]
  | (k', v') :: d' =>
      if String.eqb k' k then (k', v) :: d'
      else (k', v') :: setitem d' k v
  end.

(** [d[k]], [None] standing for [KeyError]. *)
Fixpoint getitem (d : dict) (k : string) : option V :=
  match d with
  | [] => None
  | (k', v') :: d' => if String.eqb k' k then Some v' else getitem d' k
  end.

(** [list(iter(d))] *)
Definition keys (d : dict) : list string := map fst d.

(** [len(d)] *)
Definition len (d : dict) : nat := List.length d.

(** [{key(e): val(e) for e in l}] *)
Definition comprehension (E : Type) (key : E -> string) (val : E -> V)
           (l : list E) : dict :=
  fold_left (fun d e => setitem d (key e) (val e)) l [].

End Dict.

End PyDict.

(** Names in order of first occurrence. *)
Fixpoint first_occurrences (seen l : list string) : list string :=
  match l with
  | [] => []
  | k :: l' =>
      if existsb (String.eqb k) seen then first_occurrences seen l'
      else k :: first_occurrences (k :: seen) l'
  end.

(** The last element of [l] whose key is [k]. *)
Fixpoint last_with (E : Type) (key : E -> string) (k : string) (l : list E)
  : option E :=
  match l with
  | [] => None
  | e :: l' =>
      match last_with key k l' with
      | Some e' => Some e'
      | None => if String.eqb (key e) k then Some e else None
      end
  end.

(* ===================================================================== *)
(** ** Floats *)
(* ===================================================================== *)

(** A float64 that is not nan: minus infinity, a finite real, or plus
    infinity.  Used for the prior bounds of a [Parameter]. *)
Inductive bound : Type :=
| NegInf : bound
| Fin : R -> bound
| PosInf : bound.

Definition bound_le (a b : bound) : Prop :=
  match a, b with
  | NegInf, _ => True
  | _, PosInf => True
  | Fin x, Fin y => (x <= y)%R
  | _, _ => False
  end.

(** The result of float arithmetic: [Some r] is the finite real [r],
    [None] is a non-finite float (inf or nan). *)
Definition xfloat := option R.

Definition Req_bool (a b : R) : bool :=
  if Req_dec_T a b then true else false.

(** float64 division: no exception, a zero divisor gives inf or nan. *)
Definition fdiv (a b : R) : xfloat :=
  if Req_bool b 0 then None else Some (a / b)%R.

Definition xdiv (a : xfloat) (b : R) : xfloat :=
  match a with
  | Some r => fdiv r b
  | None => None
  end.

Definition xadd (a b : xfloat) : xfloat :=
  match a, b with
  | Some r, Some s => Some (r + s)%R
  | _, _ => None
  end.

(** [np.sum] of an array of floats, some of them possibly non-finite. *)
Definition np_sum (l : list xfloat) : xfloat := fold_right xadd (Some 0%R) l.

(** Sum of a list of reals. *)
Definition Rsum (l : list R) : R := fold_right Rplus 0%R l.

(* ===================================================================== *)
(** ** NumPy operations on one-dimensional float arrays *)
(* ===================================================================== *)

Module Np.

Local Open Scope R_scope.

Definition ndarray := list R.

Definition Rltb (a b : R) : bool := if Rlt_dec a b then true else false.
Definition Rgeb (a b : R) : bool := if Rge_dec a b then true else false.

(** [np.log(v)], [np.log10(v)], [np.exp(v)] on a positive [v]. *)
Definition log (v : R) : R := ln v.
Definition log10 (v : R) : R := ln v / ln 10.

(** [b ** e] and [np.power(b, e)] for floats with a positive base [b]
    (for [b <= 0] NumPy gives nan, 0, 1 or inf, which [Rpower] does not
    follow: the theorems below only use positive bases). *)
Definition power (b e : R) : R := Rpower b e.

(** Elementwise binary operation of two arrays with NumPy's broadcasting
    rule in one dimension: equal lengths, or one operand of length one.
    [None] is the [ValueError] "operands could not be broadcast
    together". *)
Fixpoint zip_with (T : Type) (op : R -> R -> T) (a b : list R) : list T :=
  match a, b with
  | u :: a', v :: b' => op u v :: zip_with op a' b'
  | _, _ => []
  end.

Definition broadcast2 (T : Type) (op : R -> R -> T) (a b : ndarray)
  : option (list T) :=
  if Nat.eqb (List.length a) (List.length b) then Some (zip_with op a b)
  else
    match a, b with
    | [u], _ => Some (map (op u) b)
    | _, [v] => Some (map (fun u => op u v) a)
    | _, _ => None
    end.

(** [y[cond] = vals] where [vals] has the shape of [y]: the entries of
    [vals] under a true [cond] replace those of [y]. *)
Fixpoint assign_where (y : ndarray) (cond : list bool) (vals : ndarray)
  : ndarray :=
  match y, cond, vals with
  | y0 :: y', c :: cond', v :: vals' =>
      (if c then v else y0) :: assign_where y' cond' vals'
  | _, _, _ => y
  end.

(** [np.piecewise(x, condlist, funclist)] with as many functions as
    conditions, every function elementwise: the output starts as zeros
    and each condition, in order, writes its function's values over the
    entries where it holds (a later condition wins). *)
Definition piecewise (x : ndarray) (condlist : list (list bool))
           (funclist : list (R -> R)) : ndarray :=
  fold_left
    (fun y cf => assign_where y (fst cf) (map (snd cf) x))
    (combine condlist funclist)
    (map (fun _ => 0) x).

End Np.

(* ===================================================================== *)
(** ** [model.py]: [Parameter] and [Model] *)
(* ===================================================================== *)

Module ModelPy.

Import Np.
Local Open Scope string_scope.
Local Open Scope list_scope.

(** *** chisq *)

(** What [chisq] returns: [_chisq], or the tuple
    [(_chisq, _chisq / (len(x) - len(p)))]. *)
Inductive chisq_ret : Type :=
| Chisq (c : xfloat)
| ChisqReduced (c reduced : xfloat).

(** [chisq(x, y, sigma, model, p, return_reduced=False)].  [None] is the
    broadcasting [ValueError] of NumPy; a zero in [sigma ** 2] makes the
    quotient, and so the sum, non-finite without raising. *)
Definition chisq (x y sigma : ndarray) (model : ndarray -> list R -> ndarray)
           (p : list R) (return_reduced : bool) : option chisq_ret :=
  match broadcast2 Rminus y (model x p) with
  | None => None
  | Some r =>
      match broadcast2 fdiv (map (fun v => v ^ 2) r)
                       (map (fun v => v ^ 2) sigma) with
      | None => None
      | Some q =>
          let _chisq := np_sum q in
          if return_reduced
          then Some (ChisqReduced _chisq
                       (xdiv _chisq
                          (IZR (Z.of_nat (List.length x)
                                - Z.of_nat (List.length p)))))
          else Some (Chisq _chisq)
      end
  end%R.


Definition chisq_formula_x (y m sigma : ndarray) (n : nat) : xfloat :=
  np_sum (map (fun i =>
                 option_map (fun q => q ^ 2)
                   (fdiv (nth i y 0 - nth i m 0) (nth i sigma 0)))
              (seq 0 n))%R.

(** A model to evaluate [chisq] on: [lambda x, *p: x + 1]. *)
Definition add_one (x : ndarray) (p : list R) : ndarray :=
  map (fun v => v + 1)%R x.

(** *** The afterglow shapes, in log10 space *)

Section Shapes.
Local Open Scope R_scope.

Definition _w07_before (T F alpha t : R) : R -> R :=
  fun x =>
    (- t * power 10 (- x) + alpha - alpha * power 10 (x - T)
     + F * log 10) / log 10.

Definition _w07_after (T F alpha t : R) : R -> R :=
  fun x => F + T * alpha - x * alpha - t * power 10 (- x) / log 10.

Definition _w07 (x : ndarray) (T F alpha t : R) : ndarray :=
  piecewise x
    [map (fun v => Rltb v T) x; map (fun v => Rgeb v T) x]
    [_w07_before T F alpha t; _w07_after T F alpha t].

Definition _simple_bpl_before (linT linF alpha1 : R) : R -> R :=
  fun x => linF * power (x / linT) (- alpha1).

Definition _simple_bpl_after (linT linF alpha2 : R) : R -> R :=
  fun x => linF * power (x / linT) (- alpha2).

Definition _simple_bpl (x : ndarray) (T F alpha1 alpha2 : R) : ndarray :=
  let linT := power 10 T in
  let linF := power 10 F in
  let linX := map (power 10) x in
  let vals :=
    piecewise linX
      [map (fun v => Rltb v linT) linX; map (fun v => Rgeb v linT) linX]
      [_simple_bpl_before linT linF alpha1;
       _simple_bpl_after linT linF alpha2] in
  map log10 vals.

(** [S] is taken non-zero: [-1 / S] is then the real quotient. *)
Definition _smooth_bpl (x : ndarray) (T F alpha1 alpha2 S : R) : ndarray :=
  let linT := power 10 T in
  let linF := power 10 F in
  let linX := map (power 10) x in
  map (fun lx =>
         log10 (linF * power (power (lx / linT) (S * alpha1)
                              + power (lx / linT) (S * alpha2))
                             (- 1 / S)))
      linX.

End Shapes.

(** The same quantity for the two broken power laws of this module:
    [|_smooth_bpl(x, ...) - _simple_bpl(x, ...)|] at one sample point. *)
Definition _bpl_gap (x T F alpha1 alpha2 S : R) : R :=
  Rabs (hd 0 (_smooth_bpl [x] T F alpha1 alpha2 S)
        - hd 0 (_simple_bpl [x] T F alpha1 alpha2))%R.

(** *** class Parameter *)

(** [Parameter] is a reserved word of Rocq: the class is [PyParameter]. *)
Record PyParameter : Type := mkParameter {
  name : string;
  description : string;
  plot_fmt : string;
  min : bound;
  max : bound;
  vary : bool
}.

(** [Parameter.__init__(self, name, description=None, min=-np.inf,
    max=np.inf, vary=True, plot_fmt=None)].  An omitted keyword argument
    is [None].  The body only stores its arguments. *)
Definition Parameter__init__ (name : string) (description : option string)
           (min max : option bound) (vary : option bool)
           (plot_fmt : option string) : PyParameter :=
  {| name := name;
     description :=
       match description with
       | Some d => d
       | None => "Autogenerated argument from input function."
       end;
     plot_fmt := match plot_fmt with Some f => f | None => name end;
     min := match min with Some b => b | None => NegInf end;
     max := match max with Some b => b | None => PosInf end;
     vary := match vary with Some b => b | None => true end |}.

(** [Parameter(name)] *)
Definition Parameter_of_name (n : string) : PyParameter :=
  Parameter__init__ n None None None None None.

(** The invariant [min <= max] of the specification. *)
Definition well_bounded (p : PyParameter) : Prop :=
  bound_le (min p) (max p).

(** The value an optional bound argument stands for. *)
Definition given (default : bound) (arg : option bound) : bound :=
  match arg with Some b => b | None => default end.

(** *** Exceptions raised by [Model.__init__] *)

Inductive exn : Type :=
| ValueError (offending model_name : string) (expected : list string)
    (** "[offending] is not a valid argument for the [model_name] model.
        Expected one of [expected]." *)
| AssertionError (msg : string).

Section Callables.

(** Types of the independent variable, of a positional parameter value,
    of the keyword arguments and of the result of a wrapped callable. *)
Variables X A K Y : Type.

(** A Python callable, as far as [Model] looks at it: its [__name__],
    the positional argument names [inspect.getfullargspec(func).args]
    and what a call [func(x, *args, **kwargs)] gives. *)
Record Callable : Type := mkCallable {
  __name__ : string;
  argspec_args : list string;
  apply : X -> list A -> K -> Y
}.

(** *** class Model *)

Record Model : Type := mkModel {
  func : Callable;
  model_name : string;
  slug : string;
  func_args : PyDict.dict PyParameter;
  bounds : list bound
}.

(** [lst[1:]] *)
Definition slice_from_1 (T : Type) (l : list T) : list T := tl l.

(** [s in arr] for a NumPy array of strings: [(arr == s).any()]. *)
Definition np_contains (arr : list string) (s : string) : bool :=
  existsb (String.eqb s) arr.

(** The [for p in func_args: if p.name not in func_argspec: raise ...]
    loop; [None] when the loop ends without raising. *)
Fixpoint check_func_args (self_name : string) (func_argspec : list string)
         (func_args : list PyParameter) : option exn :=
  match func_args with
  | [] => None
  | p :: rest =>
      if negb (np_contains func_argspec (name p))
      then Some (ValueError (name p) self_name func_argspec)
      else check_func_args self_name func_argspec rest
  end.

Definition is_empty (s : string) : bool :=
  match s with EmptyString => true | _ => false end.

(** [Model.__init__(self, func, name="", slug="", func_args=None,
    bounds=None)].  [inspect.getargspec] (used when [func_args] is
    omitted) reads the same positional names as
    [inspect.getfullargspec]. *)
Definition Model__init__ (func : Callable) (name slug : string)
           (func_args : option (list PyParameter))
           (bounds : option (list bound)) : exn + Model :=
  let self_name := if is_empty name then __name__ func else name in
  let self_slug := if is_empty slug then self_name else slug in
  let func_argspec := slice_from_1 (argspec_args func) in
  let built :=
    match func_args with
    | Some fa =>
        match check_func_args self_name func_argspec fa with
        | Some e => inl e
        | None => inr (PyDict.comprehension ModelPy.name (fun p => p) fa)
        end
    | None =>
        inr (PyDict.comprehension (fun n => n) Parameter_of_name
               (slice_from_1 (argspec_args func)))
    end in
  match built with
  | inl e => inl e
  | inr d =>
      match bounds with
      | Some b =>
          if Nat.eqb (List.length b) 4
          then inr (mkModel func self_name self_slug d b)
          else inl (AssertionError "bounds must be a list of length 4")
      | None =>
          inr (mkModel func self_name self_slug d
                 [NegInf; PosInf; NegInf; PosInf])
      end
  end.

(** The names the callable expects: its formal parameters without the
    first one, the independent variable. *)
Definition expected (f : Callable) : list string :=
  slice_from_1 (argspec_args f).

Definition valid_name (f : Callable) (p : PyParameter) : Prop :=
  In (name p) (expected f).


(** The names a construction declares, in the order it meets them: those
    of [func_args], or the callable's own when [func_args] is omitted. *)
Definition declared_names (f : Callable)
           (func_args : option (list PyParameter)) : list string :=
  match func_args with
  | Some fa => map name fa
  | None => slice_from_1 (argspec_args f)
  end.

(** [Model.__len__] *)
Definition Model__len__ (self : Model) : nat := PyDict.len (func_args self).

(** [Model.__iter__], as the list of what the iterator yields. *)
Definition Model__iter__ (self : Model) : list string :=
  PyDict.keys (func_args self).

(** [Model.__getitem__]; [None] is [KeyError]. *)
Definition Model__getitem__ (self : Model) (key : string)
  : option PyParameter :=
  PyDict.getitem (func_args self) key.

(** [p[:n]] for [n >= 0] *)
Definition slice_to (T : Type) (n : nat) (p : list T) : list T :=
  firstn n p.

(** [Model.__call__(self, x, *p, **kwargs)] *)
Definition Model__call__ (self : Model) (x : X) (p : list A) (kwargs : K)
  : Y :=
  apply (func self) x (slice_to (Model__len__ self) p) kwargs.

End Callables.

(** *** The named presets *)

(** The three shapes as Python callables: a call with the wrong number of
    positional arguments is a [TypeError] ([None]); the presets are
    called without keyword arguments. *)
Definition PresetModel : Type := Model ndarray R unit (option ndarray).

Definition _w07_callable : Callable ndarray R unit (option ndarray) :=
  {| __name__ := "_w07";
     argspec_args := ["x"; "T"; "F"; "alpha"; "t"];
     apply := fun x args _ =>
       match args with
       | [T; F; alpha; t] => Some (_w07 x T F alpha t)
       | _ => None
       end |}.

Definition _simple_bpl_callable
  : Callable ndarray R unit (option ndarray) :=
  {| __name__ := "_simple_bpl";
     argspec_args := ["x"; "T"; "F"; "alpha1"; "alpha2"];
     apply := fun x args _ =>
       match args with
       | [T; F; alpha1; alpha2] => Some (_simple_bpl x T F alpha1 alpha2)
       | _ => None
       end |}.

Definition _smooth_bpl_callable
  : Callable ndarray R unit (option ndarray) :=
  {| __name__ := "_smooth_bpl";
     argspec_args := ["x"; "T"; "F"; "alpha1"; "alpha2"; "S"];
     apply := fun x args _ =>
       match args with
       | [T; F; alpha1; alpha2; S'] =>
           Some (_smooth_bpl x T F alpha1 alpha2 S')
       | _ => None
       end |}.

Definition W07_func_args (vary_t : bool) : list PyParameter :=
  [ Parameter__init__ "T" (Some "log time at end of plateau (log sec)")
      (Some (Fin 1e-10)) (Some (Fin 10)) None None;
    Parameter__init__ "F"
      (Some "log flux at end of plateau (log erg/cm^2/s)")
      (Some (Fin (-20))) (Some (Fin 2)) None None;
    Parameter__init__ "alpha" (Some "temporal decay index of power law")
      (Some (Fin 0)) (Some (Fin 5)) None (Some "$\alpha$");
    Parameter__init__ "t" (Some "log time at peak (log sec)")
      (Some (Fin 0)) (Some PosInf) (Some vary_t) None ].

(** [Model.W07(vary_t=True)] *)
Definition W07 (vary_t : bool) : exn + PresetModel :=
  Model__init__ _w07_callable "Willingale 2007" "w07"
    (Some (W07_func_args vary_t)) None.

Definition SIMPLE_BPL_func_args : list PyParameter :=
  [ Parameter__init__ "T" (Some "log time at end of plateau (log sec)")
      (Some (Fin 1e-5)) (Some (Fin 10)) None None;
    Parameter__init__ "F"
      (Some "log flux at end of plateau  (log erg cm^-2 s^-1)")
      (Some (Fin (-20))) (Some (Fin (-2))) None None;
    Parameter__init__ "alpha1"
      (Some "temporal decay index of initial power law")
      (Some (Fin (-5))) (Some (Fin 5)) None (Some "$\alpha_1$");
    Parameter__init__ "alpha2"
      (Some "temporal decay index of end power law")
      (Some (Fin 0)) (Some (Fin 20)) None (Some "$\alpha_2$") ].

(** [Model.SIMPLE_BPL()] *)
Definition SIMPLE_BPL : exn + PresetModel :=
  Model__init__ _simple_bpl_callable "simple broken power law" "simple_bpl"
    (Some SIMPLE_BPL_func_args) None.

Definition SMOOTH_BPL_func_args : list PyParameter :=
  SIMPLE_BPL_func_args
  ++ [ Parameter__init__ "S" (Some "smoothing factor")
         None None None None ].

(** [Model.SMOOTH_BPL()] *)
Definition SMOOTH_BPL : exn + PresetModel :=
  Model__init__ _smooth_bpl_callable "smooth broken power law" "smooth_bpl"
    (Some SMOOTH_BPL_func_args) None.

(** What a preset declares for the key [k]: a Parameter of that name that
    is free to vary, except [t] of W07, which varies as [vary_t] says. *)
Definition declares (vary_t : bool) (kp : string * PyParameter) : Prop :=
  name (snd kp) = fst kp
  /\ vary (snd kp) = (if String.eqb (fst kp) "t" then vary_t else true)
  /\ well_bounded (snd kp).

End ModelPy.

(* ===================================================================== *)
(** ** [models.py]: the linear-space formulas *)
(* ===================================================================== *)

Module ModelsPy.

Import Np.
Local Open Scope R_scope.

(** [np.vectorize(pyfunc)] applied to a one-dimensional array and scalar
    parameters: [pyfunc] is called on each element; on an empty array
    NumPy raises a [ValueError] ([None]). *)
Definition vectorize (pyfunc : R -> R) (x : ndarray) : option ndarray :=
  match x with
  | [] => None
  | _ => Some (map pyfunc x)
  end.

(** [np.piecewise] on a scalar: the scalar is a one-element array. *)
Definition piecewise_scalar (x : R) (c1 c2 : bool) (f1 f2 : R -> R) : R :=
  hd 0 (piecewise [x] [[c1]; [c2]] [f1; f2]).

Definition w07_before (T F alpha t : R) : R -> R :=
  fun x =>
    log10 (power 10 F
           * exp (alpha - alpha * (power 10 x / power 10 T))
           * exp (- t / power 10 x)).

Definition w07_after (T F alpha t : R) : R -> R :=
  fun x =>
    log10 (power 10 F
           * power (power 10 x / power 10 T) (- alpha)
           * exp (- t / power 10 x)).

(** The body of [w07], called on one element. *)
Definition w07_pyfunc (T F alpha t : R) (x : R) : R :=
  piecewise_scalar x
    (Rltb (power 10 x) (power 10 T)) (Rgeb (power 10 x) (power 10 T))
    (w07_before T F alpha t) (w07_after T F alpha t).

Definition w07 (x : ndarray) (T F alpha t : R) : option ndarray :=
  vectorize (w07_pyfunc T F alpha t) x.

Definition sharp_bpl (x : ndarray) (T F alpha1 alpha2 : R) : ndarray :=
  let linT := power 10 T in
  let linF := power 10 F in
  let linX := map (power 10) x in
  let before := fun x => linF * power (x / linT) (- alpha1) in
  let after := fun x => linF * power (x / linT) (- alpha2) in
  let vals :=
    piecewise linX
      [map (fun v => Rltb v linT) linX; map (fun v => Rgeb v linT) linX]
      [before; after] in
  map log10 vals.

(** The body of [smooth_bpl], called on one element.  The first power has
    base [x / linT], the second [linX / linT], as the source has them;
    [S] is taken non-zero. *)
Definition smooth_bpl_pyfunc (T F alpha1 alpha2 S : R) (x : R) : R :=
  let linT := power 10 T in
  let linF := power 10 F in
  let linX := power 10 x in
  log10 (linF * power (power (x / linT) (alpha1 * S)
                       + power (linX / linT) (alpha2 * S))
                      (- 1 / S)).

Definition smooth_bpl (x : ndarray) (T F alpha1 alpha2 S : R)
  : option ndarray :=
  vectorize (smooth_bpl_pyfunc T F alpha1 alpha2 S) x.

(** [chisq(x, y, yerr, model, *p)] of models.py: what it prints, and what
    it returns ([None] is NumPy's broadcasting [ValueError], raised after
    the printing).  [np.square(v)] is [v * v], [np.power(v, 2)] is
    [v ^ 2]. *)
Definition zero_warning : string :=
  "Y_err of 0 provided. This is not gonna end well...".

Definition chisq (x y yerr : ndarray) (model : ndarray -> list R -> ndarray)
           (p : list R) : list string * option xfloat :=
  (if existsb (fun e => Req_bool e 0) yerr then [zero_warning] else [],
   match broadcast2 Rminus y (model x p) with
   | None => None
   | Some r =>
       match broadcast2 fdiv (map (fun v => v * v) r)
                        (map (fun v => v ^ 2) yerr) with
       | None => None
       | Some q => Some (np_sum q)
       end
   end).

(** The quantity of the convergence property of the specification:
    [|smooth_bpl(x, T, F, alpha1, alpha2, S) - sharp_bpl(x, T, F, alpha1,
    alpha2)|] at one sample point [x]. *)
Definition bpl_gap (x T F alpha1 alpha2 S : R) : R :=
  Rabs (smooth_bpl_pyfunc T F alpha1 alpha2 S x
        - hd 0 (sharp_bpl [x] T F alpha1 alpha2)).

End ModelsPy.

(* ===================================================================== *)
(** ** [assignments.py] *)
(* ===================================================================== *)

Module AssignmentsPy.

Local Open Scope string_scope.
Local Open Scope list_scope.

(** The [assignments] dictionary. *)
Definition assignments : list (Z * list string) :=
  [
    (1%Z,
     ["210411C"; "210321A"; "210210A"; "210204A"; "201024A"; "201021C";
      "201020A"; "201015A"]);
    (2%Z,
     ["201014A"; "200829A"; "200613A"; "200524A"; "191019A"; "191011A";
      "190627A"; "190530A"]);
    (3%Z,
     ["190114A"; "181213A"; "181201A"; "181110A"; "181020A"; "181010A";
      "180728A"; "180624A"]);
    (4%Z,
     ["180404A"; "180325A"; "180205A"; "180115A"; "171010A"; "170714A";
      "170607A"; "170604A"]);
    (5%Z,
     ["170405A"; "170214A"; "170113A"; "161219B"; "161129A"; "161014A";
      "160804A"; "160703A"]);
    (6%Z,
     ["160623A"; "160425A"; "160314A"; "160228A"; "160227A"; "160131A";
      "160121A"; "151031A"]);
    (7%Z,
     ["151029A"; "151027A"; "150818A"; "150727A"; "150518A"; "150514A";
      "150413A"; "150323A"]);
    (8%Z,
     ["150206A"; "141225A"; "141220A"; "141121A"; "141028A"; "141026A";
      "141004A"; "140907A"]);
    (9%Z,
     ["140808A"; "140801A"; "140710A"; "140703A"; "130418A"; "121229A";
      "121212A"]);
    (10%Z,
     ["140614A"; "140518A"; "140509A"; "140508A"; "140428A"; "140423A";
      "140318A"; "140304A"; "140301A"]);
    (11%Z,
     ["140213A"; "140206A"; "131103A"; "131011A"; "131004A"; "130518A";
      "130511A"; "130420A"]);
    (12%Z,
     ["121209A"; "121201A"; "121128A"; "121027A"; "120907A"]);
    (13%Z,
     ["120811C"; "120802A"; "120724A"; "120716A"; "120712A"; "120422A";
      "120327A"; "120311A"]);
    (14%Z,
     ["120308A"; "111229A"; "111211A"; "111129A"; "111107A"; "111008A";
      "110801A"; "110503A"]);
    (15%Z,
     ["110422A"; "110128A"; "100802A"; "100728A"; "100724A"; "100518A";
      "100513A"; "100508A"]);
    (16%Z,
     ["100425A"; "100302A"; "091109"; "091003"; "090926"; "090814";
      "090809"; "090530"]);
    (17%Z,
     ["090529"; "090516"; "090205"; "090113"; "081230"; "081203"; "081109";
      "081028"]);
    (18%Z,
     ["080916"; "080703"; "080604"; "080603"; "080520"; "080411"; "080325";
      "080319B"]);
    (19%Z,
     ["080307"; "080212"; "080205"; "080129"; "070506"; "060607"; "060604";
      "060522"]);
    (20%Z,
     ["060502"; "060223"; "050820"; "050713"; "050525"; "050502B";
      "050502"; "041219"]);
    (21%Z,
     ["031203"; "020305"; "020124"; "010921"; "980326"])
  ].

(** [assignments[n]], [None] when [n not in assignments]. *)
Fixpoint lookup (d : list (Z * list string)) (n : Z) : option (list string) :=
  match d with
  | [] => None
  | (k, v) :: d' => if Z.eqb k n then Some v else lookup d' n
  end.

(** [c in chars] *)
Fixpoint char_in (c : ascii) (chars : string) : bool :=
  match chars with
  | EmptyString => false
  | String c' chars' => if Ascii.eqb c c' then true else char_in c chars'
  end.

(** [s.rstrip(chars)]: the trailing characters of [s] that occur in
    [chars] are removed. *)
Fixpoint rstrip (chars s : string) : string :=
  match s with
  | EmptyString => EmptyString
  | String c s' =>
      match rstrip chars s' with
      | EmptyString =>
          if char_in c chars then EmptyString else String c EmptyString
      | r => String c r
      end
  end.

(** [os.path.split(p)[-1]] with the POSIX separator: what follows the
    last ["/"] of [p], the whole of [p] when it has none. *)
Fixpoint has_sep (p : string) : bool :=
  match p with
  | EmptyString => false
  | String c p' => if Ascii.eqb c "/" then true else has_sep p'
  end.

Fixpoint path_tail (p : string) : string :=
  match p with
  | EmptyString => EmptyString
  | String c p' =>
      if has_sep p' then path_tail p'
      else if Ascii.eqb c "/" then p' else p
  end.

(** [s in l] for a list of strings *)
Definition str_in (s : string) (l : list string) : bool :=
  existsb (String.eqb s) l.

Definition flux_suffix : string := "_converted_flux.txt".

(** The name [get_assignment] and [locate] read off a path. *)
Definition grb_of_path (filepath : string) : string :=
  rstrip flux_suffix (path_tail filepath).

(** [get_assignment(n)].  [glob_path] is what
    [glob2.glob(<get_dir()>/*_flux/*_converted_flux.txt)] finds in the file
    system; the function returns [None] when [n] is no key of
    [assignments]. *)
Definition get_assignment (glob_path : list string) (n : Z)
  : option (list string) :=
  match lookup assignments n with
  | Some assignment =>
      Some (fold_left
              (fun finals filepath =>
                 if str_in (grb_of_path filepath) assignment
                 then finals ++ [filepath] else finals)
              glob_path [])
  | None => None
  end.

End AssignmentsPy.

(* ===================================================================== *)
(** ** [manual_sorter.py] *)
(* ===================================================================== *)

Module ManualSorterPy.

Local Open Scope string_scope.
Local Open Scope list_scope.

Definition nl : string := String (ascii_of_nat 10) EmptyString.
Definition tab : string := String (ascii_of_nat 9) EmptyString.

(** The world the script runs in: the text files by path, the lines the
    user will type, and what has been printed (one entry per [print] or
    prompt). *)
Record world : Type := mkWorld {
  files : string -> option string;
  stdin : list string;
  stdout : list string
}.

Inductive exn : Type :=
| FileNotFoundError (path : string)
| EOFError.

(** [f.readlines()]: the lines of the text, each with its newline. *)
Fixpoint readlines (text : string) : list string :=
  match text with
  | EmptyString => []
  | String c text' =>
      if Ascii.eqb c (ascii_of_nat 10)
      then String c EmptyString :: readlines text'
      else match readlines text' with
           | [] => [String c EmptyString]
           | l :: ls => String c l :: ls
           end
  end.

(** [f.write(data)] on a file opened with mode ['a']; opening creates the
    file. *)
Definition write (w : world) (path data : string) : world :=
  {| files := fun q =>
       if String.eqb q path
       then Some (match files w path with
                  | Some text => text ++ data
                  | None => data
                  end)%string
       else files w q;
     stdin := stdin w;
     stdout := stdout w |}.

(** [print(s)] *)
Definition print (w : world) (s : string) : world :=
  {| files := files w; stdin := stdin w;
     stdout := stdout w ++ [(s ++ nl)%string] |}.

Definition prompt : string := ("Accept the above point? y/n " ++ nl)%string.

Definition header : string :=
  ("gcn" ++ tab ++ "mag" ++ tab ++ "mag_err" ++ tab ++ "band" ++ nl)%string.

Definition separator : string := ("==========================" ++ nl)%string.

(** The [while loopVal] loop on one point: the answers are read until one
    is ["n"] or ["y"]; the result is the decision ([None] when the input
    ends first, which is [EOFError]), the input left and the number of
    prompts printed. *)
Fixpoint ask (answers : list string) : option bool * list string * nat :=
  match answers with
  | [] => (None, [], 1%nat)
  | a :: rest =>
      if String.eqb a "n" then (Some false, rest, 1%nat)
      else if String.eqb a "y" then (Some true, rest, 1%nat)
      else let '(d, rest', k) := ask rest in (d, rest', S k)
  end.

(** The [for point in lines] loop. *)
Fixpoint sort_points (accepted : string) (points : list string) (w : world)
  : option exn * world :=
  match points with
  | [] => (None, w)
  | point :: points' =>
      let w1 := print (print w separator) point in
      let '(d, rest, k) := ask (stdin w1) in
      let w2 := {| files := files w1; stdin := rest;
                   stdout := stdout w1 ++ repeat prompt k |} in
      match d with
      | None => (Some EOFError, w2)
      | Some false => sort_points accepted points' w2
      | Some true =>
          sort_points accepted points' (write w2 accepted (point ++ nl))
      end
  end.

(** [manual_sort(filepath, grb)] *)
Definition manual_sort (filepath grb : string) (w : world)
  : option exn * world :=
  let flagged := (filepath ++ grb ++ "_sentences_mag.txt")%string in
  let accepted := (filepath ++ grb ++ "_acceped_mag.txt")%string in
  match files w flagged with
  | None => (Some (FileNotFoundError flagged), w)
  | Some text =>
      let w1 := write w accepted header in
      sort_points accepted (tl (readlines text)) w1
  end.

(** The answers that decide: ["y"] and ["n"]. *)
Definition is_decision (a : string) : bool :=
  String.eqb a "n" || String.eqb a "y".

(** The points kept by a list of decisions, one per point. *)
Fixpoint kept (points decisions : list string) : list string :=
  match points, decisions with
  | point :: points', d :: decisions' =>
      if String.eqb d "y" then point :: kept points' decisions'
      else kept points' decisions'
  | _, _ => []
  end.

(** What the script writes for the kept points. *)
Fixpoint written (points : list string) : string :=
  match points with
  | [] => EmptyString
  | point :: points' => (point ++ nl ++ written points')%string
  end.

(** A world to run the script in: one flagged file of a header and two
    points, and a user who answers ["y"], then ["maybe"], then ["n"]. *)
Definition example_world : world :=
  {| files := fun q =>
       if String.eqb q "gcn/080319B_sentences_mag.txt"
       then Some ("gcn mag" ++ nl ++ "1 17.2" ++ nl ++ "2 18.0" ++ nl)%string
       else None;
     stdin := ["y"; "maybe"; "n"];
     stdout := [] |}.

End ManualSorterPy.

(* ===================================================================== *)
(** * Facts about dictionaries *)
(* ===================================================================== *)

Section DictFacts.
Import PyDict.
Variable V : Type.
Implicit Types (d : dict V) (k : string) (v : V).

Lemma existsb_eqb_In (k : string) (l : list string) :
  existsb (String.eqb k) l = true <-> In k l.
Proof.
  rewrite existsb_exists. split.
  - intros [y [Hy He]]. apply String.eqb_eq in He. now subst.
  - intros H. exists k. split; [assumption | apply String.eqb_refl].
Qed.

Lemma keys_setitem d k v :
  keys (setitem d k v) =
  if existsb (String.eqb k) (keys d) then keys d else keys d ++ [k].
Proof.
  induction d as [| [k' v'] d IH]; simpl; [reflexivity |].
  rewrite (String.eqb_sym k k').
  destruct (String.eqb k' k) eqn:E; simpl.
  - reflexivity.
  - rewrite IH.
    destruct (existsb (String.eqb k) (keys d)); reflexivity.
Qed.

Lemma getitem_setitem d k v k0 :
  getitem (setitem d k v) k0 =
  if String.eqb k k0 then Some v else getitem d k0.
Proof.
  induction d as [| [k' v'] d IH]; simpl.
  - reflexivity.
  - destruct (String.eqb k' k) eqn:E; simpl.
    + apply String.eqb_eq in E. subst k'.
      destruct (String.eqb k k0); reflexivity.
    + destruct (String.eqb k' k0) eqn:E0.
      * apply String.eqb_eq in E0. subst k'.
        rewrite String.eqb_sym, E. reflexivity.
      * apply IH.
Qed.

Lemma first_occurrences_seen (l seen1 seen2 : list string) :
  (forall s, existsb (String.eqb s) seen1 = existsb (String.eqb s) seen2) ->
  first_occurrences seen1 l = first_occurrences seen2 l.
Proof.
  revert seen1 seen2.
  induction l as [| k l IH]; intros seen1 seen2 H; simpl; [reflexivity |].
  rewrite (H k).
  destruct (existsb (String.eqb k) seen2).
  - now apply IH.
  - f_equal. apply IH. intros s. simpl. now rewrite H.
Qed.

Section Comprehension.
Variable E : Type.
Variable key : E -> string.
Variable val : E -> V.

Let step := fun d (e : E) => setitem d (key e) (val e).

Lemma keys_fold (l : list E) d :
  keys (fold_left step l d) =
  keys d ++ first_occurrences (keys d) (map key l).
Proof.
  revert d.
  induction l as [| e l IH]; intros d; simpl.
  - now rewrite app_nil_r.
  - rewrite IH. unfold step. rewrite !keys_setitem.
    destruct (existsb (String.eqb (key e)) (keys d)) eqn:Hk.
    + reflexivity.
    + rewrite <- app_assoc. simpl. do 2 f_equal.
      apply first_occurrences_seen. intros s.
      rewrite existsb_app. simpl.
      rewrite orb_false_r. apply orb_comm.
Qed.

Lemma getitem_fold (l : list E) d k :
  getitem (fold_left step l d) k =
  match last_with key k l with
  | Some e => Some (val e)
  | None => getitem d k
  end.
Proof.
  revert d.
  induction l as [| e l IH]; intros d; simpl; [reflexivity |].
  rewrite IH. destruct (last_with key k l); [reflexivity |].
  unfold step. rewrite getitem_setitem.
  destruct (String.eqb (key e) k); reflexivity.
Qed.

Lemma keys_comprehension (l : list E) :
  keys (comprehension key val l) = first_occurrences [] (map key l).
Proof. unfold comprehension. now rewrite keys_fold. Qed.

Lemma getitem_comprehension (l : list E) k :
  getitem (comprehension key val l) k =
  option_map val (last_with key k l).
Proof.
  unfold comprehension. rewrite getitem_fold.
  destruct (last_with key k l); reflexivity.
Qed.

Lemma last_with_key (l : list E) k e :
  last_with key k l = Some e -> key e = k /\ In e l.
Proof.
  induction l as [| e0 l IH]; simpl; [discriminate |].
  destruct (last_with key k l) as [e' |].
  - intros H. injection H as <-. destruct (IH eq_refl). auto.
  - destruct (String.eqb (key e0) k) eqn:Hk; [| discriminate].
    intros H. injection H as <-. apply String.eqb_eq in Hk. auto.
Qed.

Lemma last_with_In (l : list E) k :
  In k (map key l) -> exists e, last_with key k l = Some e.
Proof.
  induction l as [| e0 l IH]; simpl; [tauto |].
  intros [H | H].
  - destruct (last_with key k l) as [e' |]; [now exists e' |].
    subst k. rewrite String.eqb_refl. now exists e0.
  - destruct (IH H) as [e He]. rewrite He. now exists e.
Qed.
End Comprehension.

End DictFacts.

Lemma first_occurrences_In (l seen : list string) (k : string) :
  In k (first_occurrences seen l) <-> In k l /\ ~ In k seen.
Proof.
  revert seen. induction l as [| a l IH]; intros seen; simpl.
  - tauto.
  - destruct (existsb (String.eqb a) seen) eqn:Ha.
    + apply existsb_eqb_In in Ha. rewrite IH. split.
      * intros [H1 H2]. auto.
      * intros [[H1 | H1] H2]; [subst; contradiction | auto].
    + assert (Hn : ~ In a seen).
      { intros H. apply existsb_eqb_In in H. congruence. }
      simpl. rewrite IH. simpl. split.
      * intros [H | [H1 H2]]; [subst; auto |].
        split; [auto | intros H; apply H2; auto].
      * intros [[H | H] H2]; [auto |].
        destruct (string_dec a k) as [-> | Hne]; [auto |].
        right. split; [assumption |]. intros [H3 | H3]; auto.
Qed.

Lemma first_occurrences_NoDup (l seen : list string) :
  NoDup l -> (forall k, In k l -> ~ In k seen) ->
  first_occurrences seen l = l.
Proof.
  revert seen. induction l as [| a l IH]; intros seen Hnd Hs; simpl.
  - reflexivity.
  - inversion Hnd as [| ? ? Ha Hl]; subst.
    destruct (existsb (String.eqb a) seen) eqn:E.
    + apply existsb_eqb_In in E. exfalso. apply (Hs a); simpl; auto.
    + f_equal. apply IH; [assumption |].
      intros k Hk [Hka | Hks].
      * subst. contradiction.
      * apply (Hs k); simpl; auto.
Qed.

(* ===================================================================== *)
(** * [Parameter] *)
(* ===================================================================== *)

Section ParameterFacts.
Import ModelPy.
Local Open Scope string_scope.

(** C6, as stated, fails: [Parameter("a", min=1, max=0)] is constructed
    without an error and has [min > max]. *)
Lemma Parameter_min_above_max :
  ~ well_bounded
      (Parameter__init__ "a" None (Some (Fin 1)) (Some (Fin 0)) None None).
Proof. unfold well_bounded. simpl. lra. Qed.

Lemma presets_well_bounded_aux (vary_t : bool) :
  Forall well_bounded (W07_func_args vary_t)
  /\ Forall well_bounded SIMPLE_BPL_func_args
  /\ Forall well_bounded SMOOTH_BPL_func_args.
Proof.
  unfold SMOOTH_BPL_func_args, SIMPLE_BPL_func_args, W07_func_args.
  repeat split; repeat constructor; unfold well_bounded; simpl; lra.
Qed.

(** C6 (amended): construction of a Parameter never fails and stores
    [min] and [max] exactly as given (defaults: minus and plus
    infinity); so the object satisfies [min <= max] exactly when the
    supplied bounds do, which is the case for the defaults and for every
    Parameter of the presets W07, SIMPLE_BPL and SMOOTH_BPL. *)
Theorem Parameter_bounds_as_given :
  (forall n d mn mx v pf,
      let p := Parameter__init__ n d mn mx v pf in
      min p = given NegInf mn /\ max p = given PosInf mx
      /\ (well_bounded p <->
          bound_le (given NegInf mn) (given PosInf mx)))
  /\ (forall n d v pf,
         well_bounded (Parameter__init__ n d None None v pf))
  /\ (forall vary_t, Forall well_bounded (W07_func_args vary_t))
  /\ Forall well_bounded SIMPLE_BPL_func_args
  /\ Forall well_bounded SMOOTH_BPL_func_args.
Proof.
  split; [| split].
  - intros n d mn mx v pf p. subst p. unfold well_bounded. simpl.
    unfold given. repeat split; auto.
  - intros. unfold well_bounded. simpl. exact I.
  - split; [intros vt; apply (presets_well_bounded_aux vt) |].
    apply (presets_well_bounded_aux true).
Qed.

End ParameterFacts.

(* ===================================================================== *)
(** * [Model] *)
(* ===================================================================== *)

Section ModelFacts.
Import ModelPy.
Variables X A K Y : Type.
Implicit Types (f : Callable X A K Y) (m : Model X A K Y).

Lemma np_contains_In (arr : list string) (s : string) :
  np_contains arr s = true <-> In s arr.
Proof. apply existsb_eqb_In. Qed.

Lemma check_func_args_None (self_name : string) (spec : list string)
      (fa : list PyParameter) :
  check_func_args self_name spec fa = None <->
  Forall (fun p => In (name p) spec) fa.
Proof.
  induction fa as [| p fa IH]; simpl.
  - split; [constructor | reflexivity].
  - destruct (np_contains spec (name p)) eqn:E; simpl.
    + apply np_contains_In in E. rewrite IH. split.
      * now constructor.
      * intros H. now inversion H.
    + split; [discriminate |]. intros H. inversion H as [| ? ? Hin ?].
      apply np_contains_In in Hin. subst. congruence.
Qed.




(** A successful construction, seen from its result. *)
Lemma Model_init_inr f nm sl fa bounds m :
  Model__init__ f nm sl fa bounds = inr m ->
  func m = f
  /\ func_args m =
     match fa with
     | Some l => PyDict.comprehension name (fun p => p) l
     | None =>
         PyDict.comprehension (fun n => n) Parameter_of_name
           (slice_from_1 (argspec_args f))
     end
  /\ match fa with
     | Some l => Forall (valid_name f) l
     | None => True
     end.
Proof.
  unfold Model__init__.
  set (self_name := if is_empty nm then __name__ f else nm).
  destruct fa as [l |].
  - destruct (check_func_args self_name (slice_from_1 (argspec_args f)) l)
      as [e |] eqn:Hc; [discriminate |].
    apply check_func_args_None in Hc.
    destruct bounds as [b |];
      [destruct (Nat.eqb (List.length b) 4); [| discriminate] |];
      intros H; injection H as <-; simpl; auto.
  - destruct bounds as [b |];
      [destruct (Nat.eqb (List.length b) 4); [| discriminate] |];
      intros H; injection H as <-; simpl; auto.
Qed.



(** C7 (amended): a constructed Model iterates over its parameter names
    in the order in which the construction declared them, each name once,
    at its first occurrence: the order of [func_args] when it is given,
    the callable's positional order (without the independent variable)
    when it is omitted.  Its length is the number of names it yields;
    indexing by a yielded name returns a Parameter of that name, the last
    one supplied under it.  The order is the callable's own whenever the
    declared names are the callable's in its order. *)
Theorem Model_iter_declaration_order f nm sl fa bounds m :
  Model__init__ f nm sl fa bounds = inr m ->
  Model__iter__ m = first_occurrences [] (declared_names f fa)
  /\ Model__len__ m = List.length (Model__iter__ m)
  /\ (forall k, In k (Model__iter__ m) ->
                exists p, Model__getitem__ m k = Some p /\ name p = k)
  /\ (forall l k, fa = Some l ->
                  Model__getitem__ m k = last_with name k l)
  /\ (NoDup (expected f) -> declared_names f fa = expected f ->
      Model__iter__ m = expected f).
Proof.
  intros Hm. apply Model_init_inr in Hm. destruct Hm as [_ [Hd _]].
  assert (Hiter : Model__iter__ m
                  = first_occurrences [] (declared_names f fa)).
  { unfold Model__iter__. rewrite Hd.
    destruct fa as [l |]; simpl; rewrite keys_comprehension;
      [reflexivity | now rewrite map_id]. }
  repeat split.
  - exact Hiter.
  - unfold Model__len__, Model__iter__, PyDict.len, PyDict.keys.
    now rewrite length_map.
  - intros k Hk. rewrite Hiter in Hk.
    apply first_occurrences_In in Hk. destruct Hk as [Hk _].
    unfold Model__getitem__. rewrite Hd.
    destruct fa as [l |]; simpl in Hk; rewrite getitem_comprehension.
    + destruct (last_with_In name l k Hk) as [e He]. rewrite He.
      exists e. split; [reflexivity |].
      now apply last_with_key in He.
    + rewrite <- (map_id (slice_from_1 (argspec_args f))) in Hk.
      destruct (last_with_In (fun n => n) _ k Hk) as [e He]. rewrite He.
      apply last_with_key in He. destruct He as [-> _].
      exists (Parameter_of_name k). split; reflexivity.
  - intros l k ->. unfold Model__getitem__. rewrite Hd.
    rewrite getitem_comprehension.
    destruct (last_with name k l); reflexivity.
  - intros Hnd Heq. rewrite Hiter, Heq.
    apply first_occurrences_NoDup; [assumption | intros k _ []].
Qed.

End ModelFacts.

(** ** Concrete constructions *)

Section ModelExamples.
Import ModelPy.
Local Open Scope string_scope.
Local Open Scope list_scope.




(** C7, as stated, fails: the simple broken power law takes
    [T, F, alpha1, alpha2] after [x]; constructed from Parameters listed
    as [F, T, alpha1, alpha2], the Model iterates in the listed order. *)
Lemma Model_iter_follows_func_args_not_signature :
  exists m,
    Model__init__ _simple_bpl_callable "" ""
      (Some (map Parameter_of_name ["F"; "T"; "alpha1"; "alpha2"])) None
    = inr m
    /\ Model__iter__ m = ["F"; "T"; "alpha1"; "alpha2"]
    /\ expected _simple_bpl_callable = ["T"; "F"; "alpha1"; "alpha2"]
    /\ Model__iter__ m <> expected _simple_bpl_callable.
Proof.
  eexists. split; [reflexivity |]. repeat split. discriminate.
Qed.

Lemma Model_iter_declaration_order_witness :
  exists m,
    W07 true = inr m
    /\ Model__iter__ m = expected _w07_callable.
Proof.
  eexists. split; [reflexivity |].
  apply (Model_iter_declaration_order _w07_callable "Willingale 2007"
           "w07" (Some (W07_func_args true)) None eq_refl).
  - unfold expected. simpl.
    repeat constructor; simpl; intuition discriminate.
  - reflexivity.
Defined.


End ModelExamples.

(* ===================================================================== *)
(** * Real-number facts used by the shapes *)
(* ===================================================================== *)

Section RealFacts.
Import Np.
Local Open Scope R_scope.

Lemma exp_double_lower (x a b : R) :
  0 <= a -> a <= exp x -> b <= a * a -> b <= exp (x + x).
Proof.
  intros Ha Hx Hb. rewrite exp_plus.
  apply Rle_trans with (a * a); [assumption |].
  apply Rmult_le_compat; assumption.
Qed.

Ltac exp_double H a :=
  match type of H with
  | ?a0 <= exp ?x =>
      let H' := fresh "H" in
      assert (H' : a <= exp (x + x))
        by (apply (@exp_double_lower x a0 a); [lra | exact H | lra]);
      clear H; rename H' into H
  end.

(** [(1 + 2.32/256)^256 > 10], by eight squarings. *)
Lemma exp_2_32_above_10 : 10 < exp 2.32.
Proof.
  assert (H : 1.0090625 <= exp (2.32 / 256))
    by (generalize (exp_ineq1_le (2.32 / 256)); lra).
  exp_double H 1.018207128.
  exp_double H 1.036745755.
  exp_double H 1.07484176.
  exp_double H 1.155284809.
  exp_double H 1.334682989.
  exp_double H 1.781378681.
  exp_double H 3.173310005.
  exp_double H 10.069896387.
  match type of H with _ <= exp ?y => replace y with 2.32 in H by lra end.
  lra.
Qed.

(** [(1 - 2.28/256)^256 > 1/10], by eight squarings. *)
Lemma exp_minus_2_28_above_tenth : 0.1 < exp (- 2.28).
Proof.
  assert (H : 0.99109375 <= exp (- 2.28 / 256))
    by (generalize (exp_ineq1_le (- 2.28 / 256)); lra).
  exp_double H 0.982266821.
  exp_double H 0.964848107.
  exp_double H 0.930931869.
  exp_double H 0.866634144.
  exp_double H 0.751054739.
  exp_double H 0.56408322.
  exp_double H 0.318189879.
  exp_double H 0.101244799.
  match type of H with _ <= exp ?y => replace y with (- 2.28) in H by lra end.
  lra.
Qed.

Lemma ln_10_bounds : 2.28 < ln 10 < 2.32.
Proof.
  split.
  - apply Rle_lt_trans with (ln (exp 2.28)); [rewrite ln_exp; lra |].
    apply ln_increasing; [apply exp_pos |].
    pose proof exp_minus_2_28_above_tenth as H.
    replace (exp (- 2.28)) with (/ exp 2.28) in H
      by (rewrite <- exp_Ropp; f_equal; lra).
    pose proof (exp_pos 2.28) as Hp.
    apply Rmult_lt_reg_r with (/ exp 2.28);
      [now apply Rinv_0_lt_compat |].
    rewrite Rinv_r by lra. lra.
  - apply Rlt_le_trans with (ln (exp 2.32)).
    + apply ln_increasing; [lra | exact exp_2_32_above_10].
    + rewrite ln_exp. lra.
Qed.

Lemma ln_10_pos : 0 < ln 10.
Proof. pose proof ln_10_bounds. lra. Qed.

Lemma ln_10_neq_0 : ln 10 <> 0.
Proof. pose proof ln_10_pos. lra. Qed.

Lemma power_pos (b e : R) : 0 < power b e.
Proof. unfold power, Rpower. apply exp_pos. Qed.

Lemma log10_power (b e : R) : log10 (power b e) = e * log10 b.
Proof. unfold log10, power. rewrite ln_Rpower. unfold Rdiv. ring. Qed.

Lemma log10_10 : log10 10 = 1.
Proof. unfold log10. field. exact ln_10_neq_0. Qed.

Lemma log10_power10 (e : R) : log10 (power 10 e) = e.
Proof. rewrite log10_power, log10_10. ring. Qed.

Lemma log10_mult (a b : R) :
  0 < a -> 0 < b -> log10 (a * b) = log10 a + log10 b.
Proof.
  intros Ha Hb. unfold log10. rewrite ln_mult by assumption.
  field. exact ln_10_neq_0.
Qed.

Lemma log10_exp (y : R) : log10 (exp y) = y / ln 10.
Proof. unfold log10. now rewrite ln_exp. Qed.

Lemma power10_div (x T : R) : power 10 x / power 10 T = power 10 (x - T).
Proof.
  unfold power, Rminus, Rdiv. now rewrite Rpower_plus, Rpower_Ropp.
Qed.

Lemma power10_inv (x : R) : / power 10 x = power 10 (- x).
Proof. unfold power. now rewrite Rpower_Ropp. Qed.

Lemma power10_lt (x T : R) : power 10 x < power 10 T <-> x < T.
Proof.
  unfold power. split.
  - intros H. destruct (Rlt_dec x T) as [Hlt | Hge]; [assumption |].
    exfalso. apply Rnot_lt_le in Hge. destruct Hge as [Hlt | Heq].
    + apply (Rpower_lt 10) in Hlt; lra.
    + subst. lra.
  - intros H. apply Rpower_lt; lra.
Qed.

Lemma power_1_l (e : R) : power 1 e = 1.
Proof. unfold power, Rpower. rewrite ln_1, Rmult_0_r. apply exp_0. Qed.

Lemma Rgeb_negb_Rltb (a b : R) : Rgeb a b = negb (Rltb a b).
Proof.
  unfold Rgeb, Rltb.
  destruct (Rge_dec a b), (Rlt_dec a b); simpl; try reflexivity; lra.
Qed.

Lemma Rltb_true (a b : R) : Rltb a b = true <-> a < b.
Proof.
  unfold Rltb. destruct (Rlt_dec a b); split; auto; discriminate.
Qed.

Lemma Rltb_irrefl (a : R) : Rltb a a = false.
Proof. unfold Rltb. destruct (Rlt_dec a a); [lra | reflexivity]. Qed.

(** *** [np.piecewise] with two conditions *)

Lemma assign_where_map (x : ndarray) (g : R -> R) (c : R -> bool)
      (f : R -> R) :
  assign_where (map g x) (map c x) (map f x)
  = map (fun v => if c v then f v else g v) x.
Proof. induction x as [| v x IH]; simpl; [| rewrite IH]; reflexivity. Qed.

Lemma piecewise_two (x : ndarray) (c1 c2 : R -> bool) (f1 f2 : R -> R) :
  piecewise x [map c1 x; map c2 x] [f1; f2]
  = map (fun v => if c2 v then f2 v else if c1 v then f1 v else 0) x.
Proof.
  unfold piecewise. simpl. now rewrite !assign_where_map.
Qed.

(** A split on [v < T] against [v >= T] leaves no entry at zero. *)
Lemma piecewise_lt_ge (x : ndarray) (T : R) (f1 f2 : R -> R) :
  piecewise x [map (fun v => Rltb v T) x; map (fun v => Rgeb v T) x]
            [f1; f2]
  = map (fun v => if Rltb v T then f1 v else f2 v) x.
Proof.
  rewrite (piecewise_two x (fun v => Rltb v T) (fun v => Rgeb v T)).
  apply map_ext. intros v. rewrite Rgeb_negb_Rltb.
  destruct (Rltb v T); reflexivity.
Qed.

End RealFacts.

(* ===================================================================== *)
(** * The afterglow shapes *)
(* ===================================================================== *)

Section ShapeFacts.
Import Np ModelPy.
Local Open Scope R_scope.

Lemma _w07_pointwise (x : ndarray) (T F alpha t : R) :
  _w07 x T F alpha t
  = map (fun v => if Rltb v T then _w07_before T F alpha t v
                  else _w07_after T F alpha t v) x.
Proof. unfold _w07. apply piecewise_lt_ge. Qed.

Lemma _simple_bpl_pointwise (x : ndarray) (T F alpha1 alpha2 : R) :
  _simple_bpl x T F alpha1 alpha2
  = map (fun v =>
           log10 (if Rltb (power 10 v) (power 10 T)
                  then _simple_bpl_before (power 10 T) (power 10 F) alpha1
                         (power 10 v)
                  else _simple_bpl_after (power 10 T) (power 10 F) alpha2
                         (power 10 v))) x.
Proof.
  unfold _simple_bpl. cbv zeta. rewrite piecewise_lt_ge, !map_map.
  reflexivity.
Qed.

Lemma sharp_bpl_pointwise (x : ndarray) (T F alpha1 alpha2 : R) :
  ModelsPy.sharp_bpl x T F alpha1 alpha2
  = map (fun v =>
           log10 (if Rltb (power 10 v) (power 10 T)
                  then power 10 F
                       * power (power 10 v / power 10 T) (- alpha1)
                  else power 10 F
                       * power (power 10 v / power 10 T) (- alpha2))) x.
Proof.
  unfold ModelsPy.sharp_bpl. cbv zeta. rewrite piecewise_lt_ge, !map_map.
  reflexivity.
Qed.

Lemma w07_pyfunc_pointwise (T F alpha t x : R) :
  ModelsPy.w07_pyfunc T F alpha t x
  = if Rltb (power 10 x) (power 10 T)
    then ModelsPy.w07_before T F alpha t x
    else ModelsPy.w07_after T F alpha t x.
Proof.
  unfold ModelsPy.w07_pyfunc, ModelsPy.piecewise_scalar, piecewise.
  simpl. rewrite Rgeb_negb_Rltb.
  destruct (Rltb (power 10 x) (power 10 T)); reflexivity.
Qed.

Lemma nth_map_0 (g : R -> R) (x : ndarray) (i : nat) :
  (i < List.length x)%nat -> nth i (map g x) 0 = g (nth i x 0).
Proof.
  intros Hi. rewrite (nth_indep _ 0 (g 0)) by now rewrite length_map.
  apply map_nth.
Qed.

Lemma power10_5 : power 10 (- (5)) = / 100000.
Proof.
  unfold power. rewrite Rpower_Ropp. f_equal.
  replace 5 with (INR 5) by (simpl; lra).
  rewrite Rpower_pow by lra. lra.
Qed.

Lemma w07_breakpoint_value :
  _w07_after 5 (-12) 1.5 1 5 = -12 - / 100000 / ln 10.
Proof.
  unfold _w07_after, log. rewrite power10_5. field. exact ln_10_neq_0.
Qed.

Lemma w07_breakpoint_bounds :
  -12.0000044 < _w07_after 5 (-12) 1.5 1 5 < -12.0000043.
Proof.
  rewrite w07_breakpoint_value.
  pose proof ln_10_bounds as [Hlo Hhi].
  assert (Hq : 0.0000043 < / 100000 / ln 10 < 0.0000044).
  { split.
    - apply Rmult_lt_reg_r with (ln 10); [lra |].
      unfold Rdiv. rewrite Rmult_assoc, Rinv_l by lra. lra.
    - apply Rmult_lt_reg_r with (ln 10); [lra |].
      unfold Rdiv. rewrite Rmult_assoc, Rinv_l by lra. lra. }
  lra.
Qed.

(** The smooth shape at the breakpoint: both powers are 1. *)
Lemma _smooth_bpl_breakpoint (T F alpha1 alpha2 S : R) :
  S <> 0 ->
  _smooth_bpl [T] T F alpha1 alpha2 S = [F - log10 2 / S].
Proof.
  intros HS. unfold _smooth_bpl. simpl.
  replace (power 10 T / power 10 T) with 1
    by (field; pose proof (power_pos 10 T); lra).
  rewrite !power_1_l.
  rewrite log10_mult by (try apply power_pos).
  rewrite log10_power10. replace (1 + 1) with 2 by ring.
  rewrite log10_power. f_equal. field. exact HS.
Qed.

(** C3: at an entry equal to the breakpoint [T] each piecewise shape
    takes its after-break branch: the Willingale shape [_w07] (and [w07]
    of models.py) and the simple broken power law [_simple_bpl] (and
    [sharp_bpl]), whose value there is [F]; the smooth broken power law
    has one formula for every [x] and selects no branch, its value at
    [T] being [F - log10(2)/S].  For T=5, F=-12, alpha=1.5, t=1 the
    Willingale shape at x=5 is
    [F + T*alpha - x*alpha - t*10^(-x)/ln 10], which lies between
    -12.0000044 and -12.0000043, and it is what the preset [W07()]
    returns when called there. *)
Theorem breakpoint_takes_after_branch :
  (forall (x : ndarray) (T F alpha t : R) (i : nat),
      (i < List.length x)%nat -> nth i x 0 = T ->
      nth i (_w07 x T F alpha t) 0 = _w07_after T F alpha t T)
  /\ (forall (x : ndarray) (T F alpha1 alpha2 : R) (i : nat),
         (i < List.length x)%nat -> nth i x 0 = T ->
         nth i (_simple_bpl x T F alpha1 alpha2) 0
         = log10 (_simple_bpl_after (power 10 T) (power 10 F) alpha2
                    (power 10 T))
         /\ nth i (_simple_bpl x T F alpha1 alpha2) 0 = F)
  /\ (forall T F alpha t : R,
         ModelsPy.w07_pyfunc T F alpha t T
         = ModelsPy.w07_after T F alpha t T)
  /\ (forall (x : ndarray) (T F alpha1 alpha2 : R) (i : nat),
         (i < List.length x)%nat -> nth i x 0 = T ->
         nth i (ModelsPy.sharp_bpl x T F alpha1 alpha2) 0
         = log10 (power 10 F
                  * power (power 10 T / power 10 T) (- alpha2)))
  /\ (forall T F alpha1 alpha2 S : R,
         S <> 0 ->
         _smooth_bpl [T] T F alpha1 alpha2 S = [F - log10 2 / S])
  /\ _w07 [5] 5 (-12) 1.5 1
     = [-12 + 5 * 1.5 - 5 * 1.5 - 1 * power 10 (- (5)) / ln 10]
  /\ (forall v, _w07 [5] 5 (-12) 1.5 1 = [v] ->
                -12.0000044 < v < -12.0000043)
  /\ (forall vary_t, exists m,
         W07 vary_t = inr m
         /\ Model__call__ m [5] [5; -12; 1.5; 1] tt
            = Some [_w07_after 5 (-12) 1.5 1 5]).
Proof.
  split; [| split; [| split; [| split; [| split; [| split; [| split]]]]]].
  - intros x T F alpha t i Hi HT.
    rewrite _w07_pointwise, nth_map_0 by assumption.
    rewrite HT, Rltb_irrefl. reflexivity.
  - intros x T F alpha1 alpha2 i Hi HT.
    rewrite _simple_bpl_pointwise, nth_map_0 by assumption.
    rewrite HT, Rltb_irrefl. split; [reflexivity |].
    unfold _simple_bpl_after.
    replace (power 10 T / power 10 T) with 1
      by (field; pose proof (power_pos 10 T); lra).
    rewrite power_1_l, Rmult_1_r. apply log10_power10.
  - intros T F alpha t.
    rewrite w07_pyfunc_pointwise, Rltb_irrefl. reflexivity.
  - intros x T F alpha1 alpha2 i Hi HT.
    rewrite sharp_bpl_pointwise, nth_map_0 by assumption.
    rewrite HT, Rltb_irrefl. reflexivity.
  - exact _smooth_bpl_breakpoint.
  - rewrite _w07_pointwise. simpl. rewrite Rltb_irrefl.
    unfold _w07_after, log. reflexivity.
  - intros v Hv. rewrite _w07_pointwise in Hv. simpl in Hv.
    rewrite Rltb_irrefl in Hv. injection Hv as <-.
    exact w07_breakpoint_bounds.
  - intros vary_t. eexists. split; [reflexivity |].
    unfold Model__call__, Model__len__, slice_to. simpl.
    rewrite _w07_pointwise. simpl. now rewrite Rltb_irrefl.
Qed.

Lemma breakpoint_takes_after_branch_witness :
  (0 < List.length [5])%nat /\ nth 0 [5] 0 = 5
  /\ nth 0 (_w07 [5] 5 (-12) 1.5 1) 0 = _w07_after 5 (-12) 1.5 1 5.
Proof.
  split; [apply Nat.lt_0_1 |]. split; [reflexivity |].
  apply (proj1 breakpoint_takes_after_branch [5] 5 (-12) 1.5 1 0%nat).
  - apply Nat.lt_0_1.
  - reflexivity.
Defined.

(** *** The two Willingale formulas *)

Lemma w07_before_agree (T F alpha t x : R) :
  ModelsPy.w07_before T F alpha t x = _w07_before T F alpha t x.
Proof.
  unfold ModelsPy.w07_before, _w07_before, log.
  pose proof (power_pos 10 F) as HF.
  pose proof (exp_pos (alpha - alpha * (power 10 x / power 10 T))) as H1.
  pose proof (exp_pos (- t / power 10 x)) as H2.
  rewrite !log10_mult by (try assumption; apply Rmult_lt_0_compat;
                          assumption).
  rewrite log10_power10, !log10_exp, power10_div.
  replace (- t / power 10 x) with (- t * power 10 (- x))
    by (rewrite <- power10_inv; reflexivity).
  field. exact ln_10_neq_0.
Qed.

Lemma w07_after_agree (T F alpha t x : R) :
  ModelsPy.w07_after T F alpha t x = _w07_after T F alpha t x.
Proof.
  unfold ModelsPy.w07_after, _w07_after, log.
  pose proof (power_pos 10 F) as HF.
  pose proof (power_pos (power 10 x / power 10 T) (- alpha)) as H1.
  pose proof (exp_pos (- t / power 10 x)) as H2.
  rewrite !log10_mult by (try assumption; apply Rmult_lt_0_compat;
                          assumption).
  rewrite log10_power10, log10_exp, log10_power, power10_div,
    log10_power10.
  replace (- t / power 10 x) with (- t * power 10 (- x))
    by (rewrite <- power10_inv; reflexivity).
  field. exact ln_10_neq_0.
Qed.

Lemma w07_pyfunc_agree (T F alpha t x : R) :
  ModelsPy.w07_pyfunc T F alpha t x
  = if Rltb x T then _w07_before T F alpha t x
    else _w07_after T F alpha t x.
Proof.
  rewrite w07_pyfunc_pointwise, w07_before_agree, w07_after_agree.
  assert (Hb : Rltb (power 10 x) (power 10 T) = Rltb x T).
  { destruct (Rltb x T) eqn:E.
    - apply Rltb_true. apply power10_lt. now apply Rltb_true.
    - destruct (Rltb (power 10 x) (power 10 T)) eqn:E'; [| reflexivity].
      apply Rltb_true in E'. apply (proj1 (power10_lt x T)) in E'.
      apply (proj2 (Rltb_true x T)) in E'. congruence. }
  now rewrite Hb.
Qed.

(** C10: in exact real arithmetic the log-space formula [_w07] of
    model.py and the linear-space formula [w07] of models.py return the
    same value for all real [x, T, F, alpha, t]: the branches are
    selected alike ([10^x < 10^T] exactly when [x < T]), the two
    before-break formulas agree and the two after-break formulas agree;
    so the functions agree on every non-empty array. *)
Theorem w07_forms_agree :
  (forall T F alpha t x : R,
      ModelsPy.w07_pyfunc T F alpha t x = nth 0 (_w07 [x] T F alpha t) 0)
  /\ (forall T F alpha t x : R,
         x < T ->
         ModelsPy.w07_pyfunc T F alpha t x = _w07_before T F alpha t x
         /\ _w07 [x] T F alpha t = [_w07_before T F alpha t x]
         /\ ModelsPy.w07_before T F alpha t x = _w07_before T F alpha t x)
  /\ (forall T F alpha t x : R,
         x >= T ->
         ModelsPy.w07_pyfunc T F alpha t x = _w07_after T F alpha t x
         /\ _w07 [x] T F alpha t = [_w07_after T F alpha t x]
         /\ ModelsPy.w07_after T F alpha t x = _w07_after T F alpha t x)
  /\ (forall (xs : ndarray) (T F alpha t : R),
         xs <> [] ->
         ModelsPy.w07 xs T F alpha t = Some (_w07 xs T F alpha t)).
Proof.
  split; [| split; [| split]].
  - intros. rewrite w07_pyfunc_agree, _w07_pointwise. reflexivity.
  - intros T F alpha t x Hlt. apply Rltb_true in Hlt.
    rewrite w07_pyfunc_agree, _w07_pointwise. simpl. rewrite Hlt.
    repeat split. apply w07_before_agree.
  - intros T F alpha t x Hge.
    assert (Hf : Rltb x T = false).
    { destruct (Rltb x T) eqn:E; [| reflexivity].
      apply Rltb_true in E. lra. }
    rewrite w07_pyfunc_agree, _w07_pointwise. simpl. rewrite Hf.
    repeat split. apply w07_after_agree.
  - intros xs T F alpha t Hne. unfold ModelsPy.w07, ModelsPy.vectorize.
    destruct xs as [| v xs]; [congruence |].
    f_equal. rewrite _w07_pointwise. apply map_ext. intros a.
    apply w07_pyfunc_agree.
Qed.

Lemma w07_forms_agree_witness :
  4 < 5 /\ [4; 5] <> []
  /\ ModelsPy.w07_pyfunc 5 (-12) 1.5 1 4 = _w07_before 5 (-12) 1.5 1 4
  /\ ModelsPy.w07 [4; 5] 5 (-12) 1.5 1 = Some (_w07 [4; 5] 5 (-12) 1.5 1).
Proof.
  assert (H45 : 4 < 5) by lra.
  assert (Hne : [4; 5] <> []) by discriminate.
  split; [exact H45 |]. split; [exact Hne |]. split.
  - apply (proj1 (proj2 w07_forms_agree) 5 (-12) 1.5 1 4 H45).
  - apply (proj2 (proj2 (proj2 w07_forms_agree)) [4; 5] 5 (-12) 1.5 1 Hne).
Defined.

End ShapeFacts.

(* ===================================================================== *)
(** * [chisq] *)
(* ===================================================================== *)

Section ChisqFacts.
Import Np ModelPy.
Local Open Scope R_scope.

Lemma zip_with_map (T : Type) (op : R -> R -> T) (f g : R -> R)
      (a b : ndarray) :
  zip_with op (map f a) (map g b)
  = zip_with (fun u v => op (f u) (g v)) a b.
Proof.
  revert b. induction a as [| u a IH]; intros [| v b]; simpl;
    try reflexivity.
  now rewrite IH.
Qed.

Lemma zip_with_seq (T : Type) (op : R -> R -> T) (a b : ndarray) :
  List.length a = List.length b ->
  zip_with op a b
  = map (fun i => op (nth i a 0) (nth i b 0)) (seq 0 (List.length a)).
Proof.
  revert b. induction a as [| u a IH]; intros [| v b] Hlen; simpl in *;
    try reflexivity; try discriminate.
  injection Hlen as Hlen. f_equal.
  rewrite <- seq_shift, map_map. now apply IH.
Qed.

Lemma zip_with_length (T : Type) (op : R -> R -> T) (a b : ndarray) :
  List.length a = List.length b ->
  List.length (zip_with op a b) = List.length a.
Proof.
  intros H. now rewrite zip_with_seq, length_map, length_seq.
Qed.

Lemma broadcast2_same_length (T : Type) (op : R -> R -> T)
      (a b : ndarray) :
  List.length a = List.length b ->
  broadcast2 op a b = Some (zip_with op a b).
Proof. intros H. unfold broadcast2. now rewrite H, Nat.eqb_refl. Qed.

Lemma fdiv_squares (a b : R) :
  fdiv (a ^ 2) (b ^ 2) = option_map (fun q => q ^ 2) (fdiv a b).
Proof.
  unfold fdiv, Req_bool.
  destruct (Req_dec_T b 0) as [-> | Hb].
  - destruct (Req_dec_T (0 ^ 2) 0) as [_ | H]; [reflexivity |].
    exfalso. apply H. ring.
  - destruct (Req_dec_T (b ^ 2) 0) as [H | _].
    + exfalso. apply Hb. simpl in H. nra.
    + simpl. f_equal. field. exact Hb.
Qed.

Lemma fdiv_nonzero (a b : R) : b <> 0 -> fdiv a b = Some (a / b).
Proof.
  intros Hb. unfold fdiv, Req_bool.
  destruct (Req_dec_T b 0); [contradiction | reflexivity].
Qed.



(** What [chisq] computes on arrays of one length. *)
Lemma chisq_eval (x y sigma : ndarray)
      (model : ndarray -> list R -> ndarray) (p : list R) (rr : bool) :
  List.length y = List.length (model x p) ->
  List.length sigma = List.length y ->
  chisq x y sigma model p rr
  = let c := chisq_formula_x y (model x p) sigma (List.length y) in
    Some (if rr
          then ChisqReduced c
                 (xdiv c (IZR (Z.of_nat (List.length x)
                               - Z.of_nat (List.length p))))
          else Chisq c).
Proof.
  intros Hm Hs. unfold chisq.
  rewrite (broadcast2_same_length Rminus y (model x p) Hm).
  assert (Hr : List.length (zip_with Rminus y (model x p))
               = List.length y) by now apply zip_with_length.
  rewrite broadcast2_same_length by (rewrite !length_map; congruence).
  assert (Hq : zip_with fdiv
                 (map (fun v => v ^ 2) (zip_with Rminus y (model x p)))
                 (map (fun v => v ^ 2) sigma)
               = map (fun i =>
                        option_map (fun q => q ^ 2)
                          (fdiv (nth i y 0 - nth i (model x p) 0)
                                (nth i sigma 0)))
                     (seq 0 (List.length y))).
  { rewrite zip_with_map, zip_with_seq by congruence.
    rewrite Hr. apply map_ext_in. intros i Hi.
    rewrite fdiv_squares. do 2 f_equal.
    rewrite (zip_with_seq Rminus y (model x p) Hm).
    apply in_seq in Hi.
    rewrite (nth_indep _ 0 (nth 0 y 0 - nth 0 (model x p) 0))
      by (rewrite length_map, length_seq; lia).
    rewrite (map_nth (fun i => nth i y 0 - nth i (model x p) 0)).
    rewrite seq_nth by lia. reflexivity. }
  rewrite Hq. unfold chisq_formula_x. cbv zeta.
  destruct rr; reflexivity.
Qed.









End ChisqFacts.

(* ===================================================================== *)
(** * The broken power laws of [models.py] *)
(* ===================================================================== *)

Section BplFacts.
Import Np.
Local Open Scope R_scope.

Lemma power_nat (b : R) (n : nat) : 0 < b -> power b (INR n) = b ^ n.
Proof. intros Hb. unfold power. now apply Rpower_pow. Qed.

Lemma power_one (b : R) : 0 < b -> power b 1 = b.
Proof. intros Hb. unfold power. now apply Rpower_1. Qed.

Lemma power_zero (b : R) : 0 < b -> power b 0 = 1.
Proof. intros Hb. unfold power. now apply Rpower_O. Qed.

Lemma power10_2 : power 10 2 = 100.
Proof.
  replace 2 with (INR 2) by (simpl; lra). rewrite power_nat by lra. lra.
Qed.

Lemma log10_inv (a : R) : 0 < a -> log10 (/ a) = - log10 a.
Proof.
  intros Ha. unfold log10. rewrite ln_Rinv by assumption.
  field. exact ln_10_neq_0.
Qed.

Lemma log10_lt (a b : R) : 0 < a -> a < b -> log10 a < log10 b.
Proof.
  intros Ha Hab. unfold log10, Rdiv.
  apply Rmult_lt_compat_r.
  - apply Rinv_0_lt_compat. exact ln_10_pos.
  - now apply ln_increasing.
Qed.

(** The sample point of the evaluation below: [x = 1], [T = 2], [F = 0],
    [alpha1 = 1], [alpha2 = 2]. *)
Lemma sharp_bpl_sample : ModelsPy.sharp_bpl [1] 2 0 1 2 = [1].
Proof.
  rewrite sharp_bpl_pointwise. simpl.
  rewrite power10_2, power_one, power_zero by lra.
  assert (Hlt : Rltb 10 100 = true) by (apply Rltb_true; lra).
  rewrite Hlt. f_equal.
  rewrite Rmult_1_l, log10_power.
  replace (10 / 100) with (/ 10) by lra.
  rewrite log10_inv, log10_10 by lra. ring.
Qed.

Lemma smooth_bpl_sample_S1 :
  ModelsPy.smooth_bpl_pyfunc 2 0 1 2 1 1 = log10 50.
Proof.
  unfold ModelsPy.smooth_bpl_pyfunc. cbv zeta.
  rewrite power10_2, (@power_one 10), (@power_zero 10) by lra.
  replace (1 * 1) with 1 by ring.
  replace (2 * 1) with (INR 2) by (simpl; lra).
  rewrite power_one, power_nat by lra.
  rewrite Rmult_1_l, log10_power.
  replace (1 / 100 + (10 / 100) ^ 2) with (/ 50) by lra.
  rewrite log10_inv by lra. field.
Qed.

Lemma smooth_bpl_sample_S2 :
  ModelsPy.smooth_bpl_pyfunc 2 0 1 2 2 1 = log10 5000 / 2.
Proof.
  unfold ModelsPy.smooth_bpl_pyfunc. cbv zeta.
  rewrite power10_2, (@power_one 10), (@power_zero 10) by lra.
  replace (1 * 2) with (INR 2) by (simpl; lra).
  replace (2 * 2) with (INR 4) by (simpl; lra).
  rewrite !power_nat by lra.
  rewrite Rmult_1_l, log10_power.
  replace ((1 / 100) ^ 2 + (10 / 100) ^ 4) with (/ 5000) by lra.
  rewrite log10_inv by lra. field.
Qed.

(** C5 on the code: at the sample point x=1 (before the break T=2), F=0,
    alpha1=1, alpha2=2, [smooth_bpl] of models.py is [log10 50] for S=1
    and [log10(5000)/2] for S=2 while [sharp_bpl] is 1: the absolute
    difference grows from S=1 to S=2 instead of shrinking. *)
Theorem smooth_bpl_gap_grows_at_sample :
  ModelsPy.smooth_bpl [1] 2 0 1 2 1 = Some [log10 50]
  /\ ModelsPy.smooth_bpl [1] 2 0 1 2 2 = Some [log10 5000 / 2]
  /\ ModelsPy.sharp_bpl [1] 2 0 1 2 = [1]
  /\ ModelsPy.bpl_gap 1 2 0 1 2 1 < ModelsPy.bpl_gap 1 2 0 1 2 2.
Proof.
  split; [| split; [| split]].
  - unfold ModelsPy.smooth_bpl, ModelsPy.vectorize. simpl.
    now rewrite smooth_bpl_sample_S1.
  - unfold ModelsPy.smooth_bpl, ModelsPy.vectorize. simpl.
    now rewrite smooth_bpl_sample_S2.
  - exact sharp_bpl_sample.
  - unfold ModelsPy.bpl_gap.
    rewrite smooth_bpl_sample_S1, smooth_bpl_sample_S2, sharp_bpl_sample.
    simpl hd.
    assert (H1 : 1 < log10 50)
      by (rewrite <- log10_10; apply log10_lt; lra).
    assert (H2 : 2 * log10 50 < log10 5000).
    { replace (2 * log10 50) with (log10 (50 * 50))
        by (rewrite log10_mult by lra; ring).
      apply log10_lt; lra. }
    rewrite !Rabs_pos_eq by lra. lra.
Qed.

End BplFacts.

(* ===================================================================== *)
(** * The smooth broken power law of [model.py] against the sharp one *)
(* ===================================================================== *)

Section SmoothBplFacts.
Import Np ModelPy.
Local Open Scope R_scope.

(** With [u = 10^x / 10^T], [_smooth_bpl] is
    [F - ln (u^(S*alpha1) + u^(S*alpha2)) / (S * ln 10)]: a logarithm of a
    sum of two exponentials in [S], divided by [S]. *)

Lemma lse_above_l (A B : R) : A < ln (exp A + exp B).
Proof.
  apply exp_lt_inv. rewrite exp_ln.
  - pose proof (exp_pos B). lra.
  - pose proof (exp_pos A). pose proof (exp_pos B). lra.
Qed.

Lemma lse_above_r (A B : R) : B < ln (exp A + exp B).
Proof. rewrite Rplus_comm. apply lse_above_l. Qed.

Lemma lse_scaling (A B r : R) :
  1 < r -> ln (exp (r * A) + exp (r * B)) < r * ln (exp A + exp B).
Proof.
  intros Hr. set (M := ln (exp A + exp B)).
  assert (HM : exp M = exp A + exp B).
  { unfold M. apply exp_ln.
    pose proof (exp_pos A). pose proof (exp_pos B). lra. }
  assert (HA : A < M) by apply lse_above_l.
  assert (HB : B < M) by apply lse_above_r.
  assert (Hsum : exp (A - M) + exp (B - M) = 1).
  { unfold Rminus. rewrite !exp_plus, exp_Ropp, <- Rmult_plus_distr_r, <- HM.
    apply Rinv_r. pose proof (exp_pos M). lra. }
  assert (H1 : exp (r * (A - M)) < exp (A - M)) by (apply exp_increasing; nra).
  assert (H2 : exp (r * (B - M)) < exp (B - M)) by (apply exp_increasing; nra).
  apply exp_lt_inv. rewrite exp_ln.
  - replace (r * A) with (r * M + r * (A - M)) by ring.
    replace (r * B) with (r * M + r * (B - M)) by ring.
    rewrite !exp_plus. pose proof (exp_pos (r * M)). nra.
  - pose proof (exp_pos (r * A)). pose proof (exp_pos (r * B)). lra.
Qed.

Lemma lse_ratio_decreasing (a b S1 S2 : R) :
  0 < S1 < S2 ->
  ln (exp (S2 * a) + exp (S2 * b)) / S2 < ln (exp (S1 * a) + exp (S1 * b)) / S1.
Proof.
  intros [H1 H2].
  pose proof (@lse_scaling (S1 * a) (S1 * b) (S2 / S1)) as H.
  replace (S2 / S1 * (S1 * a)) with (S2 * a) in H by (field; lra).
  replace (S2 / S1 * (S1 * b)) with (S2 * b) in H by (field; lra).
  assert (Hr : 1 < S2 / S1).
  { apply Rmult_lt_reg_r with S1; [assumption |].
    unfold Rdiv. rewrite Rmult_assoc, Rinv_l by lra. lra. }
  specialize (H Hr).
  apply Rmult_lt_reg_r with S2; [lra |].
  unfold Rdiv at 1. rewrite Rmult_assoc, Rinv_l, Rmult_1_r by lra.
  replace (ln (exp (S1 * a) + exp (S1 * b)) / S1 * S2)
    with (S2 / S1 * ln (exp (S1 * a) + exp (S1 * b))) by (field; lra).
  exact H.
Qed.

Lemma lse_gap_positive_S (a b c S1 S2 : R) :
  c = a \/ c = b -> 0 < S1 < S2 ->
  0 < ln (exp (S2 * a) + exp (S2 * b)) / S2 - c
    < ln (exp (S1 * a) + exp (S1 * b)) / S1 - c.
Proof.
  intros Hc HS. split.
  - assert (H : S2 * c < ln (exp (S2 * a) + exp (S2 * b)))
      by (destruct Hc as [-> | ->]; [apply lse_above_l | apply lse_above_r]).
    assert (Hq : c < ln (exp (S2 * a) + exp (S2 * b)) / S2).
    { apply Rmult_lt_reg_r with S2; [lra |].
      unfold Rdiv. rewrite Rmult_assoc, Rinv_l by lra. lra. }
    lra.
  - pose proof (@lse_ratio_decreasing a b S1 S2 HS). lra.
Qed.

Lemma lse_gap_negative_S (a b c S1 S2 : R) :
  c = a \/ c = b -> S2 < S1 < 0 ->
  ln (exp (S1 * a) + exp (S1 * b)) / S1 - c
  < ln (exp (S2 * a) + exp (S2 * b)) / S2 - c < 0.
Proof.
  intros Hc HS.
  assert (Hc' : - c = - a \/ - c = - b) by (destruct Hc; [left | right]; lra).
  assert (HS' : 0 < - S1 < - S2) by lra.
  pose proof (@lse_gap_positive_S (- a) (- b) (- c) (- S1) (- S2) Hc' HS')
    as [H1 H2].
  replace (- S1 * - a) with (S1 * a) in * by ring.
  replace (- S1 * - b) with (S1 * b) in * by ring.
  replace (- S2 * - a) with (S2 * a) in * by ring.
  replace (- S2 * - b) with (S2 * b) in * by ring.
  replace (ln (exp (S2 * a) + exp (S2 * b)) / - S2)
    with (- (ln (exp (S2 * a) + exp (S2 * b)) / S2)) in * by (field; lra).
  replace (ln (exp (S1 * a) + exp (S1 * b)) / - S1)
    with (- (ln (exp (S1 * a) + exp (S1 * b)) / S1)) in * by (field; lra).
  lra.
Qed.

Lemma _bpl_gap_formula (x T F alpha1 alpha2 S : R) :
  S <> 0 ->
  let u := power 10 x / power 10 T in
  let c := (if Rltb (power 10 x) (power 10 T) then alpha1 else alpha2)
           * ln u in
  _bpl_gap x T F alpha1 alpha2 S
  = Rabs (ln (exp (S * (alpha1 * ln u)) + exp (S * (alpha2 * ln u))) / S - c)
    / ln 10.
Proof.
  intros HS u c. unfold _bpl_gap.
  rewrite _simple_bpl_pointwise. unfold _smooth_bpl. simpl hd. fold u.
  pose proof ln_10_pos as Hl.
  assert (Hsmooth :
            log10 (power 10 F
                   * power (power u (S * alpha1) + power u (S * alpha2))
                           (- 1 / S))
            = F - ln (exp (S * (alpha1 * ln u)) + exp (S * (alpha2 * ln u)))
                  / S / ln 10).
  { rewrite log10_mult by apply power_pos.
    rewrite log10_power10, log10_power. unfold log10, power, Rpower.
    replace (S * alpha1 * ln u) with (S * (alpha1 * ln u)) by ring.
    replace (S * alpha2 * ln u) with (S * (alpha2 * ln u)) by ring.
    field. split; lra. }
  assert (Hsharp :
            log10 (if Rltb (power 10 x) (power 10 T)
                   then _simple_bpl_before (power 10 T) (power 10 F) alpha1
                          (power 10 x)
                   else _simple_bpl_after (power 10 T) (power 10 F) alpha2
                          (power 10 x))
            = F - c / ln 10).
  { subst c. unfold _simple_bpl_before, _simple_bpl_after. fold u.
    destruct (Rltb (power 10 x) (power 10 T));
      rewrite log10_mult by apply power_pos;
      rewrite log10_power10, log10_power; unfold log10; field; lra. }
  rewrite Hsmooth, Hsharp.
  match goal with
  | |- Rabs ?X = _ =>
      replace X
        with (- ((ln (exp (S * (alpha1 * ln u)) + exp (S * (alpha2 * ln u)))
                  / S - c) * / ln 10)) by (field; lra)
  end.
  rewrite Rabs_Ropp, Rabs_mult.
  rewrite (Rabs_pos_eq (/ ln 10))
    by (left; now apply Rinv_0_lt_compat).
  reflexivity.
Qed.

(** X15: The convergence property on the sibling: for the smooth broken power
    law of model.py, which raises [linX / linT] in both powers, the
    absolute difference to the simple broken power law shrinks strictly as
    [|S|] grows with [S] of one sign, at every sample point. *)
Theorem _smooth_bpl_gap_shrinks (x T F alpha1 alpha2 S1 S2 : R) :
  0 < S1 < S2 \/ S2 < S1 < 0 ->
  _bpl_gap x T F alpha1 alpha2 S2 < _bpl_gap x T F alpha1 alpha2 S1.
Proof.
  intros HS.
  rewrite !_bpl_gap_formula by (destruct HS; lra). cbv zeta.
  set (u := power 10 x / power 10 T).
  set (c := (if Rltb (power 10 x) (power 10 T) then alpha1 else alpha2)
            * ln u).
  assert (Hc : c = alpha1 * ln u \/ c = alpha2 * ln u)
    by (subst c; destruct (Rltb (power 10 x) (power 10 T)); auto).
  pose proof ln_10_pos as Hl.
  apply Rmult_lt_compat_r; [now apply Rinv_0_lt_compat |].
  destruct HS as [HS | HS].
  - destruct (@lse_gap_positive_S _ _ c S1 S2 Hc HS) as [H1 H2].
    rewrite !Rabs_pos_eq by lra. exact H2.
  - destruct (@lse_gap_negative_S _ _ c S1 S2 Hc HS) as [H1 H2].
    rewrite !Rabs_left by lra. lra.
Qed.

End SmoothBplFacts.


(* ===================================================================== *)
(** * More about [Model] construction *)
(* ===================================================================== *)

Section ModelConstruction.
Import ModelPy.
Variables X A K Y : Type.
Implicit Types (f : Callable X A K Y) (m : Model X A K Y).




Lemma Model_iter_declaration_order_aux f nm sl fa bounds m :
  Model__init__ f nm sl fa bounds = inr m ->
  Model__iter__ m = first_occurrences [] (declared_names f fa)
  /\ func_args m =
     match fa with
     | Some l => PyDict.comprehension name (fun p => p) l
     | None =>
         PyDict.comprehension (fun n => n) Parameter_of_name
           (slice_from_1 (argspec_args f))
     end.
Proof.
  intros Hm. apply Model_init_inr in Hm. destruct Hm as [_ [Hd _]].
  split; [| exact Hd].
  unfold Model__iter__. rewrite Hd.
  destruct fa as [l |]; simpl; rewrite keys_comprehension;
    [reflexivity | now rewrite map_id].
Qed.

Lemma getitem_None_iff (V : Type) (d : PyDict.dict V) (k : string) :
  PyDict.getitem d k = None <-> ~ In k (PyDict.keys d).
Proof.
  induction d as [| [k' v] d IH]; simpl.
  - tauto.
  - destruct (String.eqb k' k) eqn:E.
    + apply String.eqb_eq in E. split; [discriminate | tauto].
    + apply String.eqb_neq in E. rewrite IH. tauto.
Qed.

Lemma first_occurrences_length (l seen : list string) :
  (List.length (first_occurrences seen l) <= List.length l)%nat.
Proof.
  revert seen. induction l as [| a l IH]; intros seen; simpl; [lia |].
  destruct (existsb (String.eqb a) seen); simpl.
  - specialize (IH seen). lia.
  - specialize (IH (a :: seen)). lia.
Qed.

Lemma first_occurrences_no_repeat (l seen : list string) :
  NoDup (first_occurrences seen l).
Proof.
  revert seen. induction l as [| a l IH]; intros seen; simpl.
  - constructor.
  - destruct (existsb (String.eqb a) seen); [apply IH |].
    constructor; [| apply IH].
    intros H. apply first_occurrences_In in H. simpl in H. tauto.
Qed.

Lemma first_occurrences_full_length (l seen : list string) :
  List.length (first_occurrences seen l) = List.length l
  <-> NoDup l /\ (forall k, In k l -> ~ In k seen).
Proof.
  split.
  - revert seen. induction l as [| a l IH]; intros seen; simpl.
    + intros _. split; [constructor | tauto].
    + destruct (existsb (String.eqb a) seen) eqn:E.
      * pose proof (first_occurrences_length l seen). lia.
      * simpl. intros H. injection H as H.
        destruct (IH _ H) as [Hnd Hout].
        assert (Ha : ~ In a seen).
        { intros Hin. apply existsb_eqb_In in Hin. congruence. }
        split.
        -- constructor; [| assumption].
           intros Hin. apply (Hout a Hin). simpl. auto.
        -- intros k [<- | Hk]; [assumption |].
           intros Hs. apply (Hout k Hk). simpl. auto.
  - intros [Hnd Hout]. now rewrite first_occurrences_NoDup.
Qed.


(** X4: Parameters of [func_args] that share a name collapse into one entry:
    a constructed Model never has more parameters than were supplied, it
    has as many exactly when the supplied names are distinct, and it never
    yields a name twice. *)
Theorem Model_len_counts_distinct_names f nm sl fa bounds m :
  Model__init__ f nm sl (Some fa) bounds = inr m ->
  (Model__len__ m <= List.length fa)%nat
  /\ (Model__len__ m = List.length fa <-> NoDup (map name fa))
  /\ NoDup (Model__iter__ m).
Proof.
  intros Hm.
  destruct (Model_iter_declaration_order_aux f nm sl (Some fa) bounds Hm)
    as [Hi _].
  simpl in Hi.
  assert (Hlen : Model__len__ m
                 = List.length (first_occurrences [] (map name fa))).
  { rewrite <- Hi. unfold Model__len__, Model__iter__, PyDict.len,
      PyDict.keys. now rewrite length_map. }
  split; [| split].
  - rewrite Hlen. pose proof (first_occurrences_length (map name fa) []).
    now rewrite length_map in H.
  - rewrite Hlen, <- (length_map name fa).
    rewrite first_occurrences_full_length. simpl. tauto.
  - rewrite Hi. apply first_occurrences_no_repeat.
Qed.

(** X5: Indexing a constructed Model by a key raises [KeyError] exactly when
    the key is not one of the names the Model yields, that is, not one of
    the declared names. *)
Theorem Model_getitem_KeyError_iff f nm sl fa bounds m (k : string) :
  Model__init__ f nm sl fa bounds = inr m ->
  (Model__getitem__ m k = None <-> ~ In k (Model__iter__ m))
  /\ (In k (Model__iter__ m) <-> In k (declared_names f fa)).
Proof.
  intros Hm. split.
  - apply getitem_None_iff.
  - destruct (Model_iter_declaration_order_aux f nm sl fa bounds Hm)
      as [Hi _].
    rewrite Hi, first_occurrences_In. simpl. tauto.
Qed.

(** X6: What construction stores: the callable, a [bounds] list of exactly
    four entries (the given one, or minus and plus infinity twice), the
    given name or else the callable's own, the given slug or else the
    name; when the callable has a name, neither is empty. *)
Theorem Model_init_stores f nm sl fa bounds m :
  Model__init__ f nm sl fa bounds = inr m ->
  func m = f
  /\ List.length (ModelPy.bounds m) = 4%nat
  /\ ModelPy.bounds m
     = match bounds with
       | Some b => b
       | None => [NegInf; PosInf; NegInf; PosInf]
       end
  /\ model_name m = (if is_empty nm then __name__ f else nm)
  /\ slug m = (if is_empty sl then model_name m else sl)
  /\ (__name__ f <> EmptyString ->
      model_name m <> EmptyString /\ slug m <> EmptyString).
Proof.
  unfold Model__init__.
  set (self_name := if is_empty nm then __name__ f else nm).
  set (built := match fa with Some l => _ | None => _ end).
  destruct built as [e | d]; [discriminate |].
  assert (Hn : __name__ f <> EmptyString -> self_name <> EmptyString).
  { subst self_name. destruct nm; simpl; [auto | discriminate]. }
  assert (Hs : __name__ f <> EmptyString ->
               (if is_empty sl then self_name else sl) <> EmptyString).
  { destruct sl; simpl; [auto | discriminate]. }
  destruct bounds as [b |].
  - destruct (Nat.eqb (List.length b) 4) eqn:E; [| discriminate].
    apply Nat.eqb_eq in E. intros H. injection H as <-. simpl.
    repeat split; auto.
  - intros H. injection H as <-. simpl. repeat split; auto.
Qed.

End ModelConstruction.

(* ===================================================================== *)
(** * The named presets *)
(* ===================================================================== *)

Section PresetFacts.
Import Np ModelPy.
Local Open Scope string_scope.
Local Open Scope list_scope.

(** X7: The three presets always construct; each iterates over its parameter
    names in the positional order of the shape it wraps, so a parameter
    vector in Model order is in call order; every Parameter is free to
    vary and has [min <= max], [t] of W07 varying exactly when [vary_t]
    says so. *)
Theorem presets_follow_signature (vary_t : bool) :
  exists w s b,
    W07 vary_t = inr w /\ SIMPLE_BPL = inr s /\ SMOOTH_BPL = inr b
    /\ Model__iter__ w = expected _w07_callable
    /\ Model__iter__ s = expected _simple_bpl_callable
    /\ Model__iter__ b = expected _smooth_bpl_callable
    /\ Forall (declares vary_t) (func_args w)
    /\ Forall (declares true) (func_args s)
    /\ Forall (declares true) (func_args b).
Proof.
  do 3 eexists.
  split; [reflexivity |]. split; [reflexivity |]. split; [reflexivity |].
  split; [reflexivity |]. split; [reflexivity |]. split; [reflexivity |].
  unfold declares, well_bounded.
  repeat split; simpl; repeat constructor; simpl; try reflexivity; lra.
Qed.



End PresetFacts.

Section ModelConstructionExamples.
Import ModelPy.
Local Open Scope string_scope.
Local Open Scope list_scope.




Lemma Model_len_counts_distinct_names_witness :
  exists m,
    Model__init__ _simple_bpl_callable "" ""
      (Some (map Parameter_of_name ["T"; "F"; "T"])) None = inr m
    /\ (Model__len__ m <= 3)%nat.
Proof.
  eexists. split; [reflexivity |].
  apply (@Model_len_counts_distinct_names _ _ _ _ _simple_bpl_callable "" ""
           (map Parameter_of_name ["T"; "F"; "T"]) None _ eq_refl).
Defined.

Lemma Model_getitem_KeyError_iff_witness :
  exists m,
    W07 true = inr m
    /\ (Model__getitem__ m "S" = None <-> ~ In "S" (Model__iter__ m)).
Proof.
  eexists. split; [reflexivity |].
  apply (@Model_getitem_KeyError_iff _ _ _ _ _w07_callable
           "Willingale 2007" "w07" (Some (W07_func_args true)) None _ "S"
           eq_refl).
Defined.

Lemma Model_init_stores_witness :
  exists m,
    SIMPLE_BPL = inr m
    /\ List.length (ModelPy.bounds m) = 4%nat.
Proof.
  eexists. split; [reflexivity |].
  apply (@Model_init_stores _ _ _ _ _simple_bpl_callable
           "simple broken power law" "simple_bpl"
           (Some SIMPLE_BPL_func_args) None _ eq_refl).
Defined.

End ModelConstructionExamples.

(* ===================================================================== *)
(** * More about the shapes *)
(* ===================================================================== *)

Section ShapeExtras.
Import Np ModelPy.
Local Open Scope R_scope.

Lemma Rltb_power10 (x T : R) : Rltb (power 10 x) (power 10 T) = Rltb x T.
Proof.
  destruct (Rltb x T) eqn:E.
  - apply Rltb_true. apply power10_lt. now apply Rltb_true.
  - destruct (Rltb (power 10 x) (power 10 T)) eqn:E'; [| reflexivity].
    apply Rltb_true in E'. apply (proj1 (power10_lt x T)) in E'.
    apply (proj2 (Rltb_true x T)) in E'. congruence.
Qed.

Lemma Rltb_false (a b : R) : Rltb a b = false <-> b <= a.
Proof.
  unfold Rltb. destruct (Rlt_dec a b); split; intros; try discriminate;
    try reflexivity; lra.
Qed.

Lemma _smooth_bpl_pointwise (x : ndarray) (T F alpha1 alpha2 S : R) :
  _smooth_bpl x T F alpha1 alpha2 S
  = map (fun v =>
           log10 (power 10 F
                  * power (power (power 10 v / power 10 T) (S * alpha1)
                           + power (power 10 v / power 10 T) (S * alpha2))
                          (- 1 / S))) x.
Proof. unfold _smooth_bpl. cbv zeta. now rewrite map_map. Qed.


Lemma _simple_bpl_lines (x : ndarray) (T F alpha1 alpha2 : R) :
  _simple_bpl x T F alpha1 alpha2
  = map (fun v => if Rltb v T then F - alpha1 * (v - T)
                  else F - alpha2 * (v - T)) x.
Proof.
  rewrite _simple_bpl_pointwise. apply map_ext. intros v.
  rewrite Rltb_power10.
  unfold _simple_bpl_before, _simple_bpl_after.
  destruct (Rltb v T);
    rewrite log10_mult by apply power_pos;
    rewrite log10_power10, log10_power, power10_div, log10_power10; ring.
Qed.

(** X10: In log space the broken power law, in either file, is two straight
    lines through [(T, F)]: slope [-alpha1] before the break and
    [-alpha2] from the break on. *)
Theorem simple_bpl_is_two_lines (x : ndarray) (T F alpha1 alpha2 : R) :
  _simple_bpl x T F alpha1 alpha2
  = map (fun v => if Rltb v T then F - alpha1 * (v - T)
                  else F - alpha2 * (v - T)) x
  /\ ModelsPy.sharp_bpl x T F alpha1 alpha2
     = _simple_bpl x T F alpha1 alpha2.
Proof.
  split.
  - apply _simple_bpl_lines.
  - rewrite _simple_bpl_pointwise, sharp_bpl_pointwise. reflexivity.
Qed.

(** X11: In log space the smooth broken power law is
    [F - log10(10^(S*alpha1*(x-T)) + 10^(S*alpha2*(x-T))) / S]; it does
    not change when [alpha1] and [alpha2] are exchanged, and with equal
    indices it is the straight line of that slope lowered by
    [log10(2)/S]. *)
Theorem smooth_bpl_log_form (x : ndarray) (T F alpha1 alpha2 S : R) :
  S <> 0 ->
  _smooth_bpl x T F alpha1 alpha2 S
  = map (fun v => F - log10 (power 10 (S * alpha1 * (v - T))
                             + power 10 (S * alpha2 * (v - T))) / S) x
  /\ _smooth_bpl x T F alpha1 alpha2 S = _smooth_bpl x T F alpha2 alpha1 S
  /\ _smooth_bpl x T F alpha1 alpha1 S
     = map (fun v => F - alpha1 * (v - T) - log10 2 / S) x.
Proof.
  intros HS.
  assert (Hpow : forall v a,
             power (power 10 v / power 10 T) (S * a)
             = power 10 (S * a * (v - T))).
  { intros v a. rewrite power10_div. unfold power.
    rewrite Rpower_mult. f_equal. ring. }
  assert (Hform : forall a1 a2,
             _smooth_bpl x T F a1 a2 S
             = map (fun v => F - log10 (power 10 (S * a1 * (v - T))
                                        + power 10 (S * a2 * (v - T))) / S)
                   x).
  { intros a1 a2. rewrite _smooth_bpl_pointwise. apply map_ext. intros v.
    rewrite !Hpow.
    rewrite log10_mult by apply power_pos.
    rewrite log10_power10, log10_power. field. exact HS. }
  split; [apply Hform |]. split.
  - rewrite !Hform. apply map_ext. intros v. now rewrite Rplus_comm.
  - rewrite Hform. apply map_ext. intros v.
    replace (power 10 (S * alpha1 * (v - T)) + power 10 (S * alpha1 * (v - T)))
      with (2 * power 10 (S * alpha1 * (v - T))) by ring.
    rewrite log10_mult by (try apply power_pos; lra).
    rewrite log10_power10. field. exact HS.
Qed.

Lemma smooth_bpl_log_form_witness :
  2 <> 0
  /\ _smooth_bpl [4] 5 (-12) 1 1 2
     = map (fun v => -12 - 1 * (v - 5) - log10 2 / 2) [4].
Proof.
  assert (H2 : 2 <> 0) by lra.
  split; [exact H2 |].
  apply (proj2 (proj2 (@smooth_bpl_log_form [4] 5 (-12) 1 1 2 H2))).
Defined.

Lemma continuity_glue (f g : R -> R) (T : R) :
  continuity f -> continuity g -> f T = g T ->
  continuity (fun v => if Rltb v T then f v else g v).
Proof.
  intros Hf Hg Heq x.
  unfold continuity_pt, continue_in, limit1_in, limit_in. simpl.
  unfold R_dist, D_x, no_cond. intros eps Heps.
  destruct (Hf x eps Heps) as [a1 [Ha1 H1]].
  destruct (Hg x eps Heps) as [a2 [Ha2 H2]].
  simpl in H1, H2. unfold R_dist, D_x, no_cond in H1, H2.
  destruct (Rtotal_order x T) as [Hlt | [HeqT | Hgt]].
  - exists (Rmin a1 (T - x)). split.
    + apply Rmin_pos; lra.
    + intros y [[_ Hne] Hd].
      assert (Hd1 : Rabs (y - x) < a1)
        by (eapply Rlt_le_trans; [exact Hd | apply Rmin_l]).
      assert (Hd2 : Rabs (y - x) < T - x)
        by (eapply Rlt_le_trans; [exact Hd | apply Rmin_r]).
      assert (Hy : y < T).
      { pose proof (Rle_abs (y - x)). lra. }
      unfold Rltb. destruct (Rlt_dec y T); [| lra].
      destruct (Rlt_dec x T); [| lra]. apply H1. auto.
  - subst x. exists (Rmin a1 a2). split.
    + apply Rmin_pos; lra.
    + intros y [[_ Hne] Hd].
      assert (Hd1 : Rabs (y - T) < a1)
        by (eapply Rlt_le_trans; [exact Hd | apply Rmin_l]).
      assert (Hd2 : Rabs (y - T) < a2)
        by (eapply Rlt_le_trans; [exact Hd | apply Rmin_r]).
      unfold Rltb. destruct (Rlt_dec T T); [lra |].
      destruct (Rlt_dec y T).
      * rewrite <- Heq. apply H1. auto.
      * apply H2. auto.
  - exists (Rmin a2 (x - T)). split.
    + apply Rmin_pos; lra.
    + intros y [[_ Hne] Hd].
      assert (Hd1 : Rabs (y - x) < a2)
        by (eapply Rlt_le_trans; [exact Hd | apply Rmin_l]).
      assert (Hd2 : Rabs (y - x) < x - T)
        by (eapply Rlt_le_trans; [exact Hd | apply Rmin_r]).
      assert (Hy : T < y).
      { pose proof (Rle_abs (- (y - x))). rewrite Rabs_Ropp in H. lra. }
      unfold Rltb. destruct (Rlt_dec y T); [lra |].
      destruct (Rlt_dec x T); [lra |]. apply H2. auto.
Qed.

Lemma continuity_power10_affine (a b : R) :
  continuity (fun v => power 10 (a * v + b)).
Proof.
  unfold power, Rpower.
  apply (continuity_comp (fun v => (a * v + b) * ln 10) exp).
  - apply continuity_mult; [| apply continuity_const; intros ? ?; reflexivity].
    apply continuity_plus; [| apply continuity_const; intros ? ?; reflexivity].
    apply continuity_mult; [apply continuity_const; intros ? ?; reflexivity |].
    apply derivable_continuous, derivable_id.
  - apply derivable_continuous, derivable_exp.
Qed.

Lemma continuity_ext (f g : R -> R) :
  (forall v, f v = g v) -> continuity f -> continuity g.
Proof.
  intros Hfg Hf x. unfold continuity_pt, continue_in, limit1_in, limit_in.
  intros eps Heps. destruct (Hf x eps Heps) as [a [Ha H]].
  exists a. split; [assumption |]. intros y Hy. rewrite <- !Hfg. now apply H.
Qed.

Lemma continuity_affine (c d : R) : continuity (fun v => c * v + d).
Proof.
  apply continuity_plus; [| apply continuity_const; intros ? ?; reflexivity].
  apply continuity_mult; [apply continuity_const; intros ? ?; reflexivity |].
  apply derivable_continuous, derivable_id.
Qed.

Lemma continuity_scaled_power10 (c a b : R) :
  continuity (fun v => c * power 10 (a * v + b)).
Proof.
  apply continuity_mult; [apply continuity_const; intros ? ?; reflexivity |].
  apply continuity_power10_affine.
Qed.

Lemma _w07_before_continuous (T F alpha t : R) :
  continuity (_w07_before T F alpha t).
Proof.
  apply continuity_ext
    with (f := fun v => (- t / ln 10) * power 10 (-1 * v + 0)
                        + ((- alpha / ln 10) * power 10 (1 * v + - T)
                           + (0 * v + (alpha / ln 10 + F)))).
  - intros v. unfold _w07_before, log.
    replace (-1 * v + 0) with (- v) by ring.
    replace (1 * v + - T) with (v - T) by ring.
    field. exact ln_10_neq_0.
  - apply continuity_plus; [apply continuity_scaled_power10 |].
    apply continuity_plus;
      [apply continuity_scaled_power10 | apply continuity_affine].
Qed.

Lemma _w07_after_continuous (T F alpha t : R) :
  continuity (_w07_after T F alpha t).
Proof.
  apply continuity_ext
    with (f := fun v => (- t / ln 10) * power 10 (-1 * v + 0)
                        + (- alpha * v + (F + T * alpha))).
  - intros v. unfold _w07_after, log.
    replace (-1 * v + 0) with (- v) by ring.
    field. exact ln_10_neq_0.
  - apply continuity_plus;
      [apply continuity_scaled_power10 | apply continuity_affine].
Qed.

Lemma _w07_branches_meet (T F alpha t : R) :
  _w07_before T F alpha t T = _w07_after T F alpha t T.
Proof.
  unfold _w07_before, _w07_after, log.
  replace (T - T) with 0 by ring.
  rewrite (@power_zero 10) by lra. field. exact ln_10_neq_0.
Qed.

(** X12: The piecewise shapes have no jump: at the breakpoint the before-break
    formula of the Willingale shape gives the value of the after-break
    one, and both the Willingale shape and the simple broken power law
    are continuous functions of [x] on the whole line, for all
    parameters. *)
Theorem piecewise_shapes_are_continuous (T F alpha alpha1 alpha2 t : R) :
  _w07_before T F alpha t T = _w07_after T F alpha t T
  /\ continuity (fun v => hd 0 (_w07 [v] T F alpha t))
  /\ continuity (fun v => hd 0 (_simple_bpl [v] T F alpha1 alpha2)).
Proof.
  split; [apply _w07_branches_meet |]. split.
  - apply continuity_ext
      with (f := fun v => if Rltb v T then _w07_before T F alpha t v
                          else _w07_after T F alpha t v).
    + intros v. now rewrite _w07_pointwise.
    + apply continuity_glue.
      * apply _w07_before_continuous.
      * apply _w07_after_continuous.
      * apply _w07_branches_meet.
  - apply continuity_ext
      with (f := fun v => if Rltb v T then - alpha1 * v + (F + alpha1 * T)
                          else - alpha2 * v + (F + alpha2 * T)).
    + intros v.
      rewrite _simple_bpl_lines.
      simpl. destruct (Rltb v T); ring.
    + apply continuity_glue; try apply continuity_affine. ring.
Qed.

(** X13: After the break and with [t = 0] the Willingale shape is the power
    law of the simple broken power law with [alpha2 = alpha]. *)
Theorem w07_without_t_is_power_law_after_break
        (x : ndarray) (T F alpha alpha1 : R) :
  Forall (fun v => T <= v) x ->
  _w07 x T F alpha 0 = _simple_bpl x T F alpha1 alpha.
Proof.
  intros Hx. rewrite _w07_pointwise.
  rewrite _simple_bpl_lines.
  apply map_ext_in. intros v Hv.
  rewrite Forall_forall in Hx. specialize (Hx v Hv).
  apply Rltb_false in Hx. rewrite Hx.
  unfold _w07_after, log. field. exact ln_10_neq_0.
Qed.

Lemma w07_without_t_is_power_law_after_break_witness :
  Forall (fun v => 5 <= v) [5; 6]
  /\ _w07 [5; 6] 5 (-12) 1.5 0 = _simple_bpl [5; 6] 5 (-12) 1 1.5.
Proof.
  assert (H : Forall (fun v => 5 <= v) [5; 6])
    by (repeat constructor; lra).
  split; [exact H |].
  apply (@w07_without_t_is_power_law_after_break [5; 6] 5 (-12) 1.5 1 H).
Defined.

(** X14: The rise time [t] enters the Willingale shape on both branches as the
    term [- t * 10^(-x) / ln 10]: every entry is the entry for [t = 0]
    minus that term, so a larger [t] never raises an entry. *)
Theorem w07_rise_term (x : ndarray) (T F alpha t t' : R) (i : nat) :
  (i < List.length x)%nat ->
  nth i (_w07 x T F alpha t) 0
  = nth i (_w07 x T F alpha 0) 0 - t * power 10 (- nth i x 0) / ln 10
  /\ (t <= t' ->
      nth i (_w07 x T F alpha t') 0 <= nth i (_w07 x T F alpha t) 0).
Proof.
  intros Hi.
  assert (E : forall s,
             nth i (_w07 x T F alpha s) 0
             = nth i (_w07 x T F alpha 0) 0
               - s * power 10 (- nth i x 0) / ln 10).
  { intros s. rewrite !_w07_pointwise, !nth_map_0 by assumption.
    destruct (Rltb (nth i x 0) T); unfold _w07_before, _w07_after, log;
      field; exact ln_10_neq_0. }
  split; [apply E |].
  intros Ht. rewrite (E t), (E t').
  pose proof (power_pos 10 (- nth i x 0)) as Hp.
  pose proof ln_10_pos as Hl.
  assert (Hq : 0 < power 10 (- nth i x 0) / ln 10)
    by (apply Rdiv_lt_0_compat; assumption).
  unfold Rdiv in *. nra.
Qed.

Lemma w07_rise_term_witness :
  (0 < List.length [4])%nat
  /\ nth 0 (_w07 [4] 5 (-12) 1.5 1) 0
     = nth 0 (_w07 [4] 5 (-12) 1.5 0) 0 - 1 * power 10 (- nth 0 [4] 0) / ln 10.
Proof.
  split; [apply Nat.lt_0_1 |].
  apply (proj1 (@w07_rise_term [4] 5 (-12) 1.5 1 1 0 Nat.lt_0_1)).
Defined.

End ShapeExtras.

(* ===================================================================== *)
(** * How fast the smooth broken power law approaches the sharp one *)
(* ===================================================================== *)

Section SmoothBplBound.
Import Np ModelPy.
Local Open Scope R_scope.

Lemma _smooth_bpl_gap_shrinks_witness :
  (0 < 1 < 2 \/ 2 < 1 < 0)
  /\ _bpl_gap 4 5 (-12) 1 2 2 < _bpl_gap 4 5 (-12) 1 2 1.
Proof.
  assert (H : 0 < 1 < 2 \/ 2 < 1 < 0) by (left; lra).
  split; [exact H |].
  apply (@_smooth_bpl_gap_shrinks 4 5 (-12) 1 2 1 2 H).
Defined.

Lemma lse_upper (A B c : R) :
  A <= c -> B <= c -> ln (exp A + exp B) <= ln 2 + c.
Proof.
  intros HA HB.
  assert (H1 : exp A <= exp c)
    by (destruct HA as [HA | ->]; [left; now apply exp_increasing | lra]).
  assert (H2 : exp B <= exp c)
    by (destruct HB as [HB | ->]; [left; now apply exp_increasing | lra]).
  pose proof (exp_pos A). pose proof (exp_pos B). pose proof (exp_pos c).
  assert (E : ln 2 + c = ln (2 * exp c))
    by (rewrite ln_mult by lra; now rewrite ln_exp).
  rewrite E.
  destruct (Req_dec (exp A + exp B) (2 * exp c)) as [-> | Hne]; [lra |].
  left. apply ln_increasing; lra.
Qed.

Lemma ln_ratio_power10 (x T : R) :
  ln (power 10 x / power 10 T) = (x - T) * ln 10.
Proof. rewrite power10_div. unfold power. apply ln_Rpower. Qed.

(** X16: When the sign of [S] agrees with the order of the
    indices ([S > 0] with [alpha1 <= alpha2], or [S < 0] with
    [alpha2 <= alpha1]), the smooth broken power law of model.py differs
    from the simple one, at every [x], by more than 0 and by at most
    [log10(2) / |S|]; so it tends to the simple one as [|S|] grows. *)
Theorem _smooth_bpl_gap_bound (x T F alpha1 alpha2 S : R) :
  (0 < S /\ alpha1 <= alpha2) \/ (S < 0 /\ alpha2 <= alpha1) ->
  0 < _bpl_gap x T F alpha1 alpha2 S <= log10 2 / Rabs S.
Proof.
  intros HS.
  assert (HS0 : S <> 0) by (destruct HS; lra).
  rewrite _bpl_gap_formula by assumption. cbv zeta.
  rewrite Rltb_power10, ln_ratio_power10.
  set (l := (x - T) * ln 10).
  set (c := (if Rltb x T then alpha1 else alpha2) * l).
  set (L := ln (exp (S * (alpha1 * l)) + exp (S * (alpha2 * l)))).
  pose proof ln_10_pos as Hl.
  assert (Hc : c = alpha1 * l \/ c = alpha2 * l)
    by (subst c; destruct (Rltb x T); auto).
  assert (Hsign : (Rltb x T = true /\ l < 0) \/ (Rltb x T = false /\ 0 <= l)).
  { destruct (Rltb x T) eqn:E.
    - left. split; [reflexivity |]. apply Rltb_true in E. subst l. nra.
    - right. split; [reflexivity |]. apply Rltb_false in E. subst l. nra. }
  assert (Hmax : S * (alpha1 * l) <= S * c /\ S * (alpha2 * l) <= S * c).
  { subst c.
    destruct HS as [[H1 H2] | [H1 H2]];
      destruct Hsign as [[-> Hs] | [-> Hs]].
    - assert (alpha2 * l <= alpha1 * l) by nra. split; nra.
    - assert (alpha1 * l <= alpha2 * l) by nra. split; nra.
    - assert (alpha1 * l <= alpha2 * l) by nra. split; nra.
    - assert (alpha2 * l <= alpha1 * l) by nra. split; nra. }
  assert (Hup : L <= ln 2 + S * c)
    by (subst L; apply lse_upper; tauto).
  unfold log10.
  destruct HS as [[HSp Ha] | [HSn Ha]].
  - assert (Hh : 0 < S / 2 < S) by lra.
    destruct (@lse_gap_positive_S _ _ c (S / 2) S Hc Hh) as [Hpos _].
    fold L in Hpos. rewrite (Rabs_pos_eq S) by lra.
    rewrite Rabs_pos_eq by lra. split.
    + apply Rdiv_lt_0_compat; assumption.
    + apply Rmult_le_reg_r with (ln 10 * S); [nra |].
      replace ((L / S - c) / ln 10 * (ln 10 * S)) with (L - S * c)
        by (field; lra).
      replace (ln 2 / ln 10 / S * (ln 10 * S)) with (ln 2) by (field; lra).
      lra.
  - assert (Hh : S < S / 2 < 0) by lra.
    destruct (@lse_gap_negative_S _ _ c (S / 2) S Hc Hh) as [_ Hneg].
    fold L in Hneg. rewrite (Rabs_left S) by lra.
    rewrite Rabs_left by lra. split.
    + apply Rdiv_lt_0_compat; lra.
    + apply Rmult_le_reg_r with (ln 10 * - S); [nra |].
      replace (- (L / S - c) / ln 10 * (ln 10 * - S)) with (L - S * c)
        by (field; lra).
      replace (ln 2 / ln 10 / - S * (ln 10 * - S)) with (ln 2)
        by (field; lra).
      lra.
Qed.

Lemma _smooth_bpl_gap_bound_witness :
  ((0 < 3 /\ 1 <= 2) \/ (3 < 0 /\ 2 <= 1))
  /\ _bpl_gap 4 5 (-12) 1 2 3 <= log10 2 / Rabs 3.
Proof.
  assert (H : (0 < 3 /\ 1 <= 2) \/ (3 < 0 /\ 2 <= 1)) by (left; lra).
  split; [exact H |].
  apply (@_smooth_bpl_gap_bound 4 5 (-12) 1 2 3 H).
Defined.

End SmoothBplBound.

(* ===================================================================== *)
(** * More about [chisq] *)
(* ===================================================================== *)

Section ChisqExtras.
Import Np ModelPy.
Local Open Scope R_scope.






Lemma broadcast2_mismatch (T : Type) (op : R -> R -> T) (a b : ndarray) :
  List.length a <> List.length b ->
  List.length a <> 1%nat -> List.length b <> 1%nat ->
  broadcast2 op a b = None.
Proof.
  intros Hab Ha Hb. unfold broadcast2.
  apply Nat.eqb_neq in Hab. rewrite Hab.
  destruct a as [| u [| u' a]]; destruct b as [| v [| v' b]];
    simpl in *; try reflexivity; congruence.
Qed.

(** X18: [chisq] raises NumPy's broadcasting error, whether or not the reduced
    value is asked for, when [y] and the model's output differ in length
    and neither has length one, and when they agree but [sigma] has
    another length, neither being one. *)
Theorem chisq_shape_mismatch
        (x y sigma : ndarray) (model : ndarray -> list R -> ndarray)
        (p : list R) (rr : bool) :
  (List.length y <> List.length (model x p) ->
   List.length y <> 1%nat -> List.length (model x p) <> 1%nat ->
   chisq x y sigma model p rr = None)
  /\ (List.length y = List.length (model x p) ->
      List.length sigma <> List.length y ->
      List.length sigma <> 1%nat -> List.length y <> 1%nat ->
      chisq x y sigma model p rr = None).
Proof.
  split.
  - intros H1 H2 H3. unfold chisq.
    now rewrite broadcast2_mismatch.
  - intros Hm Hs Hs1 Hy1. unfold chisq.
    rewrite (broadcast2_same_length Rminus y (model x p) Hm).
    rewrite broadcast2_mismatch; [reflexivity | | |];
      rewrite ?length_map, ?zip_with_length by assumption; congruence.
Qed.

Lemma chisq_shape_mismatch_witness :
  List.length [3; 5] <> List.length (add_one [1; 2; 3] [])
  /\ chisq [1; 2; 3] [3; 5] [1; 1] add_one [] true = None.
Proof.
  assert (H1 : List.length [3; 5] <> List.length (add_one [1; 2; 3] []))
    by (simpl; discriminate).
  split; [exact H1 |].
  apply (proj1 (@chisq_shape_mismatch [1; 2; 3] [3; 5] [1; 1] add_one []
                  true) H1); simpl; discriminate.
Defined.

End ChisqExtras.

Section ChisqBroadcastAndScale.
Import Np ModelPy.
Local Open Scope R_scope.

Lemma broadcast2_scalar_r (T : Type) (op : R -> R -> T) (a : ndarray)
      (v : R) :
  broadcast2 op a [v] = Some (map (fun u => op u v) a).
Proof. destruct a as [| u [| u' a]]; reflexivity. Qed.

Lemma np_sum_scaled (l : list R) (d : R) :
  d <> 0 -> np_sum (map (fun u => fdiv u d) l) = Some (Rsum l / d).
Proof.
  intros Hd. induction l as [| u l IH].
  - simpl. f_equal. field. exact Hd.
  - change (xadd (fdiv u d) (np_sum (map (fun u => fdiv u d) l))
            = Some (Rsum (u :: l) / d)).
    rewrite IH, fdiv_nonzero by assumption. simpl. f_equal. field. exact Hd.
Qed.

(** X19: A [sigma] of a single non-zero entry is broadcast over the data: it
    weighs every residual alike, and [chisq] is the sum of the squared
    residuals divided by the square of that entry. *)
Theorem chisq_scalar_sigma
        (x y : ndarray) (s : R) (model : ndarray -> list R -> ndarray)
        (p : list R) :
  List.length y = List.length (model x p) -> s <> 0 ->
  chisq x y [s] model p false
  = Some (Chisq (Some
       (Rsum (map (fun i => (nth i y 0 - nth i (model x p) 0) ^ 2)
                  (seq 0 (List.length y))) / s ^ 2))).
Proof.
  intros Hm Hs. unfold chisq.
  rewrite (broadcast2_same_length Rminus y (model x p) Hm).
  change (map (fun v => v ^ 2) [s]) with [s ^ 2].
  rewrite broadcast2_scalar_r.
  rewrite np_sum_scaled by (simpl; nra).
  rewrite (zip_with_seq Rminus y (model x p) Hm), map_map.
  reflexivity.
Qed.

Lemma chisq_scalar_sigma_witness :
  List.length [3; 5] = List.length (add_one [1; 2] [7]) /\ 2 <> 0
  /\ chisq [1; 2] [3; 5] [2] add_one [7] false
     = Some (Chisq (Some
          (Rsum (map (fun i => (nth i [3; 5] 0
                                - nth i (add_one [1; 2] [7]) 0) ^ 2)
                     (seq 0 2)) / 2 ^ 2))).
Proof.
  assert (H2 : 2 <> 0) by lra.
  split; [reflexivity |]. split; [exact H2 |].
  apply (@chisq_scalar_sigma [1; 2] [3; 5] 2 add_one [7] eq_refl H2).
Defined.

Lemma np_sum_map_scaled (T : Type) (f g : T -> xfloat) (k : R) (l : list T) :
  (forall i, In i l -> g i = option_map (fun v => v / k) (f i)) ->
  np_sum (map g l) = option_map (fun v => v / k) (np_sum (map f l)).
Proof.
  induction l as [| a l IH]; intros H.
  - simpl. f_equal. unfold Rdiv. ring.
  - change (xadd (g a) (np_sum (map g l))
            = option_map (fun v => v / k)
                (xadd (f a) (np_sum (map f l)))).
    rewrite (H a) by (simpl; auto).
    rewrite IH by (intros; apply H; simpl; auto).
    destruct (f a), (np_sum (map f l)); simpl; try reflexivity.
    f_equal. unfold Rdiv. ring.
Qed.

(** X20: Rescaling every standard error by a non-zero factor [k] divides
    [chisq] by [k^2] (and leaves a non-finite [chisq] non-finite); in
    particular the sign of [sigma] does not matter. *)
Theorem chisq_sigma_scaling
        (x y sigma : ndarray) (model : ndarray -> list R -> ndarray)
        (p : list R) (k : R) :
  List.length y = List.length (model x p) ->
  List.length sigma = List.length y ->
  k <> 0 ->
  exists c,
    chisq x y sigma model p false = Some (Chisq c)
    /\ chisq x y (map (Rmult k) sigma) model p false
       = Some (Chisq (option_map (fun v => v / k ^ 2) c))
    /\ chisq x y (map Ropp sigma) model p false = Some (Chisq c).
Proof.
  intros Hm Hs Hk.
  exists (chisq_formula_x y (model x p) sigma (List.length y)).
  assert (Hscaled : forall j, j <> 0 ->
             chisq_formula_x y (model x p) (map (Rmult j) sigma)
               (List.length y)
             = option_map (fun v => v / j ^ 2)
                 (chisq_formula_x y (model x p) sigma (List.length y))).
  { intros j Hj. unfold chisq_formula_x. apply np_sum_map_scaled.
    intros i Hi. apply in_seq in Hi.
    replace (nth i (map (Rmult j) sigma) 0) with (j * nth i sigma 0).
    - unfold fdiv, Req_bool.
      destruct (Req_dec_T (nth i sigma 0) 0) as [-> | Hne].
      + rewrite Rmult_0_r.
        destruct (Req_dec_T 0 0) as [_ | H]; [reflexivity | now destruct H].
      + destruct (Req_dec_T (j * nth i sigma 0) 0) as [H | _].
        * exfalso. apply Rmult_integral in H. tauto.
        * simpl. f_equal. field. tauto.
    - rewrite <- (Rmult_0_r j) at 2. symmetry.
      apply (map_nth (Rmult j)). }
  split; [| split].
  - now rewrite chisq_eval.
  - rewrite chisq_eval by (rewrite ?length_map; assumption). cbv zeta.
    now rewrite Hscaled.
  - replace (map Ropp sigma) with (map (Rmult (-1)) sigma)
      by (apply map_ext; intros; ring).
    rewrite chisq_eval by (rewrite ?length_map; assumption). cbv zeta.
    rewrite Hscaled by lra. f_equal. f_equal.
    destruct (chisq_formula_x y (model x p) sigma (List.length y));
      simpl; [| reflexivity].
    f_equal. field.
Qed.

Lemma chisq_sigma_scaling_witness :
  List.length [3; 5] = List.length (add_one [1; 2] [7])
  /\ List.length [1; 2] = List.length [3; 5] /\ 3 <> 0
  /\ exists c,
      chisq [1; 2] [3; 5] [1; 2] add_one [7] false = Some (Chisq c)
      /\ chisq [1; 2] [3; 5] (map (Rmult 3) [1; 2]) add_one [7] false
         = Some (Chisq (option_map (fun v => v / 3 ^ 2) c)).
Proof.
  assert (H3 : 3 <> 0) by lra.
  split; [reflexivity |]. split; [reflexivity |]. split; [exact H3 |].
  destruct (@chisq_sigma_scaling [1; 2] [3; 5] [1; 2] add_one [7] 3
              eq_refl eq_refl H3) as [c [H1 [H2 _]]].
  exists c. split; assumption.
Defined.



End ChisqBroadcastAndScale.

(* ===================================================================== *)
(** * [get_assignment] *)
(* ===================================================================== *)

Section AssignmentFacts.
Import AssignmentsPy.
Local Open Scope string_scope.
Local Open Scope list_scope.

Lemma append_assoc (a b c : string) :
  ((a ++ b) ++ c = a ++ (b ++ c))%string.
Proof. induction a as [| x a IH]; simpl; [| rewrite IH]; reflexivity. Qed.

Lemma append_empty_r (a : string) : (a ++ "" = a)%string.
Proof. induction a as [| x a IH]; simpl; [| rewrite IH]; reflexivity. Qed.

Lemma lookup_None_iff (d : list (Z * list string)) (n : Z) :
  lookup d n = None <-> ~ In n (map fst d).
Proof.
  induction d as [| [k v] d IH]; simpl; [tauto |].
  destruct (Z.eqb_spec k n) as [-> | Hne].
  - split; [discriminate | tauto].
  - rewrite IH. tauto.
Qed.

Lemma assignment_keys (n : Z) :
  In n (map fst assignments) <-> (1 <= n <= 21)%Z.
Proof. simpl. lia. Qed.

Lemma select_loop_filter (keep : string -> bool) (l acc : list string) :
  fold_left (fun finals fp => if keep fp then finals ++ [fp] else finals)
            l acc
  = acc ++ filter keep l.
Proof.
  revert acc. induction l as [| fp l IH]; intros acc; simpl.
  - now rewrite app_nil_r.
  - rewrite IH. destruct (keep fp); [| reflexivity].
    now rewrite <- app_assoc.
Qed.

Lemma get_assignment_selects_aux (glob_path : list string) (n : Z)
      (names : list string) :
  lookup assignments n = Some names ->
  get_assignment glob_path n
  = Some (filter (fun fp => str_in (grb_of_path fp) names) glob_path).
Proof.
  intros Hn. unfold get_assignment. rewrite Hn.
  now rewrite select_loop_filter.
Qed.

(** X22: [get_assignment(n)] returns [None] exactly when [n] is not one of the
    keys 1..21; otherwise it returns, in the order of the glob, exactly
    the paths whose last component, with its trailing characters of
    ["_converted_flux.txt"] removed, is a name assigned to [n]: nothing
    that the glob did not find, and nothing twice that the glob found
    once. *)
Theorem get_assignment_selects (glob_path : list string) (n : Z) :
  (get_assignment glob_path n = None <-> ~ (1 <= n <= 21)%Z)
  /\ (forall names,
         lookup assignments n = Some names ->
         get_assignment glob_path n
         = Some (filter (fun fp => str_in (grb_of_path fp) names)
                        glob_path))
  /\ (forall finals fp,
         get_assignment glob_path n = Some finals ->
         In fp finals -> In fp glob_path)
  /\ (forall finals,
         get_assignment glob_path n = Some finals ->
         NoDup glob_path -> NoDup finals).
Proof.
  split; [| split; [apply get_assignment_selects_aux | split]].
  - rewrite <- assignment_keys, <- lookup_None_iff.
    unfold get_assignment.
    destruct (lookup assignments n); split; intros; congruence.
  - intros finals fp Hf Hin.
    destruct (lookup assignments n) as [names |] eqn:Hn.
    + rewrite (get_assignment_selects_aux glob_path n Hn) in Hf.
      injection Hf as <-. apply filter_In in Hin. tauto.
    + unfold get_assignment in Hf. rewrite Hn in Hf. discriminate.
  - intros finals Hf Hnd.
    destruct (lookup assignments n) as [names |] eqn:Hn.
    + rewrite (get_assignment_selects_aux glob_path n Hn) in Hf.
      injection Hf as <-. now apply NoDup_filter.
    + unfold get_assignment in Hf. rewrite Hn in Hf. discriminate.
Qed.

Lemma has_sep_append (a b : string) :
  has_sep (a ++ b) = has_sep a || has_sep b.
Proof.
  induction a as [| c a IH]; simpl; [reflexivity |].
  destruct (Ascii.eqb c "/"); [reflexivity | exact IH].
Qed.

Lemma path_tail_join (dir base : string) :
  has_sep base = false -> path_tail (dir ++ "/" ++ base) = base.
Proof.
  intros Hb. induction dir as [| c dir IH]; simpl.
  - now rewrite Hb.
  - rewrite has_sep_append. simpl. rewrite orb_true_r. exact IH.
Qed.

Lemma rstrip_all (chars s : string) :
  (forall c, char_in c s = true -> char_in c chars = true) ->
  rstrip chars s = "".
Proof.
  induction s as [| c s IH]; intros H; simpl; [reflexivity |].
  rewrite IH.
  - rewrite (H c); [reflexivity |]. simpl. now rewrite Ascii.eqb_refl.
  - intros c' Hc'. apply H. simpl. rewrite Hc'.
    now destruct (Ascii.eqb c' c).
Qed.

(** Stripping absorbs a tail made of characters of the set. *)
Lemma rstrip_append (chars s tail : string) :
  (forall c, char_in c tail = true -> char_in c chars = true) ->
  rstrip chars (s ++ tail) = rstrip chars s.
Proof.
  intros H. induction s as [| c s IH]; simpl.
  - now apply rstrip_all.
  - now rewrite IH.
Qed.

Lemma char_in_append (c : ascii) (a b : string) :
  char_in c (a ++ b) = char_in c a || char_in c b.
Proof.
  induction a as [| x a IH]; simpl; [reflexivity |].
  destruct (Ascii.eqb c x); [reflexivity | exact IH].
Qed.

Lemma str_in_In (s : string) (l : list string) :
  str_in s l = true <-> In s l.
Proof. apply existsb_eqb_In. Qed.

Lemma has_sep_char_in (s : string) : has_sep s = char_in "/" s.
Proof.
  induction s as [| c s IH]; [reflexivity |].
  cbn [has_sep char_in].
  rewrite (Ascii.eqb_sym "/"%char c), IH. reflexivity.
Qed.

(** No assigned name ends in a character of the stripped set or contains
    a separator: stripping leaves it unchanged. *)
Lemma assigned_names_are_stripped :
  forallb (fun nm => String.eqb (rstrip flux_suffix nm) nm
                     && negb (has_sep nm))
          (List.concat (map snd assignments)) = true.
Proof. vm_compute. reflexivity. Qed.

Lemma lookup_In (d : list (Z * list string)) (n : Z) (names : list string)
      (nm : string) :
  lookup d n = Some names -> In nm names -> In nm (List.concat (map snd d)).
Proof.
  induction d as [| [k v] d IH]; simpl; [discriminate |].
  intros H Hin. apply in_or_app.
  destruct (Z.eqb k n).
  - injection H as ->. now left.
  - right. now apply IH.
Qed.

(** X23: The file of every assigned GRB is kept wherever it lies, and so is
    every file whose name is an assigned name followed by any run of
    characters of ["_converted_flux.txt"] before that suffix: [rstrip]
    removes a set of characters, not the suffix. *)
Theorem get_assignment_keeps_assigned
        (glob_path : list string) (n : Z) (names : list string)
        (nm run dir : string) :
  lookup assignments n = Some names -> In nm names ->
  (forall c, char_in c run = true -> char_in c flux_suffix = true) ->
  In (dir ++ "/" ++ nm ++ run ++ flux_suffix)%string glob_path ->
  grb_of_path (dir ++ "/" ++ nm ++ run ++ flux_suffix)%string = nm
  /\ exists finals,
      get_assignment glob_path n = Some finals
      /\ In (dir ++ "/" ++ nm ++ run ++ flux_suffix)%string finals.
Proof.
  intros Hn Hnm Hrun Hin.
  pose proof assigned_names_are_stripped as Hall.
  rewrite forallb_forall in Hall.
  specialize (Hall nm (@lookup_In _ _ _ _ Hn Hnm)).
  apply andb_true_iff in Hall. destruct Hall as [Hs Hsep].
  apply String.eqb_eq in Hs. apply negb_true_iff in Hsep.
  assert (Htail : forall c, char_in c (run ++ flux_suffix)%string = true ->
                            char_in c flux_suffix = true).
  { intros c Hc. rewrite char_in_append in Hc.
    apply orb_true_iff in Hc. destruct Hc; auto. }
  assert (Hrunsep : has_sep (run ++ flux_suffix)%string = false).
  { destruct (has_sep (run ++ flux_suffix)%string) eqn:E; [| reflexivity].
    exfalso.
    rewrite has_sep_char_in in E.
    apply Htail in E. vm_compute in E. discriminate. }
  assert (Hgrb : grb_of_path (dir ++ "/" ++ nm ++ run ++ flux_suffix)%string
                 = nm).
  { unfold grb_of_path. rewrite path_tail_join.
    - rewrite rstrip_append; assumption.
    - rewrite has_sep_append, Hsep, Hrunsep. reflexivity. }
  split; [exact Hgrb |].
  exists (filter (fun fp => str_in (grb_of_path fp) names) glob_path).
  split; [now apply get_assignment_selects_aux |].
  apply filter_In. split; [assumption |].
  rewrite Hgrb. now apply str_in_In.
Qed.

End AssignmentFacts.

Section AssignmentExamples.
Import AssignmentsPy.
Local Open Scope string_scope.
Local Open Scope list_scope.

Lemma get_assignment_keeps_assigned_witness :
  lookup assignments 1
  = Some ["210411C"; "210321A"; "210210A"; "210204A"; "201024A";
          "201021C"; "201020A"; "201015A"]
  /\ (forall c, char_in c "t" = true -> char_in c flux_suffix = true)
  /\ grb_of_path "lc/210411C_flux/210411Ct_converted_flux.txt" = "210411C".
Proof.
  assert (H1 : lookup assignments 1
               = Some ["210411C"; "210321A"; "210210A"; "210204A";
                       "201024A"; "201021C"; "201020A"; "201015A"])
    by reflexivity.
  assert (H3 : forall c, char_in c "t" = true
                         -> char_in c flux_suffix = true).
  { intros c Hc. cbn [char_in] in Hc.
    destruct (Ascii.eqb c "t") eqn:E; [| discriminate].
    apply Ascii.eqb_eq in E. subst c. reflexivity. }
  split; [exact H1 |]. split; [exact H3 |].
  apply (@get_assignment_keeps_assigned
           ["lc/210411C_flux/210411Ct_converted_flux.txt"] 1 _
           "210411C" "t" "lc/210411C_flux" H1
           (or_introl eq_refl) H3 (or_introl eq_refl)).
Defined.

End AssignmentExamples.

(* ===================================================================== *)
(** * [manual_sort] *)
(* ===================================================================== *)

Section ManualSortFacts.
Import ManualSorterPy.
Local Open Scope string_scope.
Local Open Scope list_scope.

Lemma append_inj_l (a b c : string) : (a ++ b = a ++ c)%string -> b = c.
Proof.
  induction a as [| x a IH]; simpl; [auto |].
  intros H. injection H as H. auto.
Qed.

Lemma flagged_is_not_accepted (filepath grb : string) :
  (filepath ++ grb ++ "_sentences_mag.txt")%string
  <> (filepath ++ grb ++ "_acceped_mag.txt")%string.
Proof.
  intros H. apply append_inj_l, append_inj_l in H. discriminate.
Qed.

(** The loop on one point stops at the first deciding answer. *)
Lemma ask_spec (answers : list string) :
  fst (fst (ask answers))
  = match filter is_decision answers with
    | [] => None
    | d :: _ => Some (String.eqb d "y")
    end
  /\ filter is_decision (snd (fst (ask answers)))
     = tl (filter is_decision answers).
Proof.
  induction answers as [| a rest [IH1 IH2]]; [split; reflexivity |].
  cbn [ask filter].
  destruct (String.eqb a "n") eqn:En.
  - assert (Hd : is_decision a = true)
      by (unfold is_decision; now rewrite En).
    rewrite Hd. apply String.eqb_eq in En. subst a. split; reflexivity.
  - destruct (String.eqb a "y") eqn:Ey.
    + assert (Hd : is_decision a = true)
        by (unfold is_decision; now rewrite En, Ey).
      rewrite Hd. cbn [fst snd tl]. rewrite Ey. split; reflexivity.
    + assert (Hd : is_decision a = false)
        by (unfold is_decision; now rewrite En, Ey).
      rewrite Hd. destruct (ask rest) as [[d rest'] k].
      cbn [fst snd] in *. split; assumption.
Qed.

Lemma sort_points_spec (accepted : string) (points : list string) :
  forall (w : world) (text : string),
    files w accepted = Some text ->
    (List.length points <= List.length (filter is_decision (stdin w))
     -> fst (sort_points accepted points w) = None
        /\ files (snd (sort_points accepted points w)) accepted
           = Some (text
                   ++ written (kept points
                                    (filter is_decision (stdin w))))%string
        /\ (forall q, q <> accepted ->
                      files (snd (sort_points accepted points w)) q
                      = files w q)
        /\ filter is_decision (stdin (snd (sort_points accepted points w)))
           = skipn (List.length points) (filter is_decision (stdin w)))%nat
    /\ (List.length (filter is_decision (stdin w)) < List.length points
        -> fst (sort_points accepted points w) = Some EOFError)%nat.
Proof.
  induction points as [| point points IH]; intros w text Hacc.
  - cbn [sort_points fst snd List.length kept written skipn]. split.
    + intros _. rewrite append_empty_r. repeat split; auto.
    + intros H. inversion H.
  - cbn [sort_points].
    change (stdin (print (print w separator) point)) with (stdin w).
    destruct (ask_spec (stdin w)) as [Hd Hrest].
    destruct (ask (stdin w)) as [[d rest] k]. cbn [fst snd] in Hd, Hrest.
    destruct (filter is_decision (stdin w)) as [| d0 ds] eqn:Hds.
    + subst d. cbn [fst snd List.length]. split; [lia | reflexivity].
    + subst d. cbn [tl] in Hrest. cbn [List.length kept skipn].
      destruct (String.eqb d0 "y") eqn:Ey.
      * set (w2 := write _ accepted (point ++ nl)).
        assert (Hacc2 : files w2 accepted
                        = Some (text ++ (point ++ nl))%string).
        { subst w2. unfold write. cbn [files print].
          rewrite String.eqb_refl, Hacc. reflexivity. }
        assert (Hother : forall q, q <> accepted -> files w2 q = files w q).
        { intros q Hq. subst w2. unfold write. cbn [files print].
          apply String.eqb_neq in Hq. now rewrite Hq. }
        assert (Hin : stdin w2 = rest) by reflexivity.
        destruct (IH w2 _ Hacc2) as [Hok Heof]. rewrite Hin, Hrest in *.
        split.
        -- intros Hlen. destruct Hok as [H1 [H2 [H3 H4]]]; [lia |].
           split; [exact H1 |]. split; [| split].
           ++ rewrite H2. cbn [written]. now rewrite !append_assoc.
           ++ intros q Hq. rewrite H3 by assumption. now apply Hother.
           ++ exact H4.
        -- intros Hlen. apply Heof. lia.
      * set (w2 := {| files := _; stdin := rest; stdout := _ |}).
        assert (Hacc2 : files w2 accepted = Some text) by exact Hacc.
        assert (Hin : stdin w2 = rest) by reflexivity.
        destruct (IH w2 _ Hacc2) as [Hok Heof]. rewrite Hin, Hrest in *.
        split.
        -- intros Hlen. destruct Hok as [H1 [H2 [H3 H4]]]; [lia |].
           repeat split; assumption.
        -- intros Hlen. apply Heof. lia.
Qed.

(** X24: What a successful run leaves behind.  When the flagged file exists and
    the user gives at least one deciding answer (["y"] or ["n"]) per point
    (the lines of the flagged file after its first), [manual_sort] ends
    without an exception; it has appended to the accepted file the header
    line and then, in order, each point whose deciding answer was ["y"],
    followed by a newline; the points are decided by the deciding answers
    in order, any other answer being asked again; no other file, the
    flagged one included, has changed. *)
Theorem manual_sort_outcome (filepath grb : string) (w : world)
        (text : string) :
  let flagged := (filepath ++ grb ++ "_sentences_mag.txt")%string in
  let accepted := (filepath ++ grb ++ "_acceped_mag.txt")%string in
  let points := tl (readlines text) in
  let decisions := filter is_decision (stdin w) in
  let old := match files w accepted with Some t => t | None => "" end in
  files w flagged = Some text ->
  (List.length points <= List.length decisions)%nat ->
  fst (manual_sort filepath grb w) = None
  /\ files (snd (manual_sort filepath grb w)) accepted
     = Some (old ++ header ++ written (kept points decisions))%string
  /\ (forall q, q <> accepted ->
                files (snd (manual_sort filepath grb w)) q = files w q)
  /\ files (snd (manual_sort filepath grb w)) flagged = Some text
  /\ filter is_decision (stdin (snd (manual_sort filepath grb w)))
     = skipn (List.length points) decisions.
Proof.
  intros flagged accepted points decisions old Hf Hlen.
  unfold manual_sort. fold flagged accepted. rewrite Hf. fold points.
  set (w1 := write w accepted header).
  assert (Hacc : files w1 accepted = Some (old ++ header)%string).
  { subst w1 old. unfold write. cbn [files]. rewrite String.eqb_refl.
    destruct (files w accepted); reflexivity. }
  assert (Hother : forall q, q <> accepted -> files w1 q = files w q).
  { intros q Hq. subst w1. unfold write. cbn [files].
    apply String.eqb_neq in Hq. now rewrite Hq. }
  destruct (sort_points_spec accepted points w1 Hacc) as [Hok _].
  change (stdin w1) with (stdin w) in Hok. fold decisions in Hok.
  destruct (Hok Hlen) as [H1 [H2 [H3 H4]]].
  split; [exact H1 |]. split; [| split; [| split]].
  - rewrite H2. now rewrite append_assoc.
  - intros q Hq. rewrite H3 by assumption. now apply Hother.
  - rewrite H3, Hother by apply flagged_is_not_accepted. exact Hf.
  - exact H4.
Qed.

(** X25: How a run ends: with [FileNotFoundError], and nothing changed, exactly
    when the flagged file does not exist; with [EOFError] exactly when it
    exists and the input holds fewer deciding answers than there are
    points; without an exception otherwise. *)
Theorem manual_sort_errors (filepath grb : string) (w : world) :
  let flagged := (filepath ++ grb ++ "_sentences_mag.txt")%string in
  let points := match files w flagged with
                | Some text => tl (readlines text)
                | None => []
                end in
  let decisions := filter is_decision (stdin w) in
  (files w flagged = None
   <-> manual_sort filepath grb w = (Some (FileNotFoundError flagged), w))
  /\ (fst (manual_sort filepath grb w) = Some EOFError
      <-> files w flagged <> None
          /\ (List.length decisions < List.length points)%nat)
  /\ (fst (manual_sort filepath grb w) = None
      <-> files w flagged <> None
          /\ (List.length points <= List.length decisions)%nat).
Proof.
  intros flagged points decisions. subst points.
  unfold manual_sort. fold flagged.
  destruct (files w flagged) as [text |] eqn:Hf.
  - set (accepted := (filepath ++ grb ++ "_acceped_mag.txt")%string).
    set (w1 := write w accepted header).
    assert (Hacc : exists t, files w1 accepted = Some t).
    { subst w1. unfold write. cbn [files]. rewrite String.eqb_refl. eauto. }
    destruct Hacc as [t Hacc].
    destruct (sort_points_spec accepted (tl (readlines text)) w1 Hacc)
      as [Hok Heof].
    change (stdin w1) with (stdin w) in Hok, Heof.
    fold decisions in Hok, Heof.
    destruct (Nat.le_gt_cases (List.length (tl (readlines text)))
                (List.length decisions)) as [Hle | Hgt].
    + destruct (Hok Hle) as [H1 _]. rewrite H1.
      split; [| split].
      * split; [discriminate |]. intros H.
        apply (f_equal fst) in H. cbn [fst] in H. congruence.
      * split; [discriminate | intros [_ H]; lia].
      * split; [intros _; split; [discriminate | assumption] | reflexivity].
    + pose proof (Heof Hgt) as He. rewrite He. split; [| split].
      * split; [discriminate |]. intros H.
        apply (f_equal fst) in H. cbn [fst] in H. congruence.
      * split; [intros _; split; [discriminate | assumption] | reflexivity].
      * split; [discriminate | intros [_ H]; lia].
  - cbn [fst]. split; [| split].
    + split; reflexivity.
    + split; [discriminate | intros [H _]; now destruct H].
    + split; [discriminate | intros [H _]; now destruct H].
Qed.

Lemma manual_sort_outcome_witness :
  files example_world "gcn/080319B_sentences_mag.txt"
  = Some ("gcn mag" ++ nl ++ "1 17.2" ++ nl ++ "2 18.0" ++ nl)%string
  /\ fst (manual_sort "gcn/" "080319B" example_world) = None
  /\ files (snd (manual_sort "gcn/" "080319B" example_world))
        "gcn/080319B_acceped_mag.txt"
     = Some (header ++ ("1 17.2" ++ nl) ++ nl)%string.
Proof.
  assert (Hf : files example_world "gcn/080319B_sentences_mag.txt"
               = Some ("gcn mag" ++ nl ++ "1 17.2" ++ nl ++ "2 18.0" ++ nl)
                   %string) by reflexivity.
  destruct (@manual_sort_outcome "gcn/" "080319B" example_world _ Hf
              (le_n 2)) as [H1 [H2 _]].
  split; [exact Hf |]. split; [exact H1 | exact H2].
Defined.

End ManualSortFacts.
